(** * ProblemTDEM_b: time-domain EM problem, B-formulation

    A shallow embedding of [simpegEM/TDEM/TDEM_b.py].

    Numbers: numpy's float64 entries are idealised as the elements of an
    arbitrary field [K]; scipy's sparse matrices and numpy's 2-D arrays are
    MathComp matrices over [K], so that [*] between two operators is [*m],
    a scalar times an operator is [*:], and [.T] is [^T].  Rounding is
    outside the model.  The time mesh holds nonzero floating-point step
    sizes, so that [1/dt] and [1./dt] are the same division, the field's
    [1 / dt].

    Effects: a method reads and writes the attributes of [self]; Python
    exceptions are the [Raise] results.  A method is a function from the
    state of [self] to a result and the new state. *)

From mathcomp Require Import ssreflect ssrfun ssrbool eqtype ssrnat seq.
From mathcomp Require Import choice fintype bigop ssralg ssrnum ssrint rat matrix.

Set Implicit Arguments.
Unset Strict Implicit.
Unset Printing Implicit Defensive.

Import GRing.Theory.
Local Open Scope ring_scope.

(** ** Exceptions and results *)

Inductive exn : Set :=
  | AttributeError   (* an attribute of [self] read before it was assigned *)
  | IndexError       (* a time index outside a container *)
  | LinAlgError.     (* the linear solver met a singular system *)

Inductive result (T : Type) : Type :=
  | Ok of T
  | Raise of exn.

Arguments Ok {T} _.
Arguments Raise {T} _.

(** [solType = 'b'], the class attribute handed to the field rule. *)
Inductive SolType : Set := solType_b.

Section TDEM.

Variable K : fieldType.

(** [nE], [nF]: the mesh's edge and face counts; [nC]: the size of the
    physical property vector; [nP]: the size of the model vector. *)
Variables nE nF nC nP : nat.

(** ** Collaborators *)

(** The mesh: [mesh.edgeCurl] (edges to faces) and [mesh.getEdgeMassDeriv()]. *)
Record Mesh : Type := mkMesh {
  edgeCurl : 'M[K]_(nF, nE);
  getEdgeMassDeriv : 'M[K]_(nE, nC)
}.

(** The model transform: [model.transformDeriv(m)]. *)
Record Model : Type := mkModel {
  transformDeriv : 'cV[K]_nP -> 'M[K]_(nC, nP)
}.

(** The three mass matrices that [makeMassMatrices] assigns to [self]. *)
Record MassMatrices : Type := mkMassMatrices {
  MeSigma : 'M[K]_nE;
  MeSigmaI : 'M[K]_nE;
  MfMui : 'M[K]_nF
}.

(** Modelled from the spec: the field history container [FieldsTDEM] is not
    part of the sources.  It holds two time-indexed sequences, "e" (one
    column per edge) and "b" (one column per face), of length the number of
    time steps, for one transmitter column; "b" at index [-1] is the initial
    condition [b0], zero unless the caller seeded it. *)
Record FieldsTDEM : Type := mkFields {
  b0 : 'cV[K]_nF;
  e_hist : seq 'cV[K]_nE;
  b_hist : seq 'cV[K]_nF
}.

(** The state of [self]: the collaborators, the time mesh (its step sizes),
    the mass-matrix builder behind [makeMassMatrices], and the attributes
    [MeSigma], [MeSigmaI], [MfMui], unset until [makeMassMatrices] runs. *)
Record ProblemTDEM_b : Type := mkProblem {
  mesh : Mesh;
  model : Model;
  timeSteps : seq K;
  massBuilder : 'cV[K]_nP -> MassMatrices;
  mass : option MassMatrices
}.

(** ** Methods: state and exceptions *)

Definition Method (T : Type) : Type :=
  ProblemTDEM_b -> result T * ProblemTDEM_b.

Definition ret (T : Type) (x : T) : Method T := fun self => (Ok x, self).

Definition lift (T : Type) (r : result T) : Method T := fun self => (r, self).

Definition bind (T U : Type) (c : Method T) (k : T -> Method U) : Method U :=
  fun self =>
    match c self with
    | (Ok x, self') => k x self'
    | (Raise e, self') => (Raise e, self')
    end.

Local Notation "'do' x <- c ; k" := (bind c (fun x => k))
  (at level 200, x name, c at level 100, k at level 200, right associativity,
   format "'[v' 'do'  x  <-  c ; '/' k ']'").

Local Notation "'run' c ; k" := (bind c (fun _ => k))
  (at level 200, c at level 100, k at level 200, right associativity,
   format "'[v' 'run'  c ; '/' k ']'").

(** [for i in s: x = body(i, x)]. *)
Fixpoint forM (X : Type) (s : seq nat) (body : nat -> X -> Method X) (x : X)
  : Method X :=
  match s with
  | [::] => ret x
  | i :: s' => do x' <- body i x; forM s' body x'
  end.

(** Attribute reads. *)
Definition self_mesh : Method Mesh := fun self => (Ok (mesh self), self).
Definition self_model : Method Model := fun self => (Ok (model self), self).

Definition self_mass : Method MassMatrices :=
  fun self =>
    match mass self with
    | Some mm => (Ok mm, self)
    | None => (Raise AttributeError, self)
    end.

Definition self_MeSigma : Method 'M[K]_nE := do mm <- self_mass; ret (MeSigma mm).
Definition self_MeSigmaI : Method 'M[K]_nE := do mm <- self_mass; ret (MeSigmaI mm).
Definition self_MfMui : Method 'M[K]_nF := do mm <- self_mass; ret (MfMui mm).

(** Modelled from the spec: the time mesh of the base class is not part of
    the sources.  [times.size] is the step count and [getDt(tInd)] the step
    size of a time index of the mesh. *)
Definition times_size : Method nat := fun self => (Ok (size (timeSteps self)), self).

Definition getDt (tInd : nat) : Method K :=
  fun self =>
    if (tInd < size (timeSteps self))%N then (Ok (nth 0 (timeSteps self) tInd), self)
    else (Raise IndexError, self).

(** Modelled from the spec: [makeMassMatrices(m)] of the base class is not
    part of the sources.  It rebuilds the three mass matrices from the model
    and assigns them to [self]. *)
Definition makeMassMatrices (m : 'cV[K]_nP) : Method unit :=
  fun self =>
    (Ok tt, mkProblem (mesh self) (model self) (timeSteps self) (massBuilder self)
              (Some (massBuilder self m))).

(** ** The field history container *)

(** Modelled from the spec: [FieldsTDEM(mesh, 1, nT, 'b')], a fresh history
    of [nT] time steps with no initial condition seeded. *)
Definition newFieldsTDEM (nT : nat) : FieldsTDEM :=
  mkFields 0 (nseq nT 0) (nseq nT 0).

(** Modelled from the spec: the accessors of the container.  A time index
    outside the history raises; [get_b(-1)] is the initial condition. *)
Definition get_e (u : FieldsTDEM) (i : nat) : result 'cV[K]_nE :=
  if (i < size (e_hist u))%N then Ok (nth 0 (e_hist u) i) else Raise IndexError.

Definition get_b (u : FieldsTDEM) (i : int) : result 'cV[K]_nF :=
  match i with
  | Posz n => if (n < size (b_hist u))%N then Ok (nth 0 (b_hist u) n) else Raise IndexError
  | Negz 0 => Ok (b0 u)
  | Negz _ => Raise IndexError
  end.

Definition set_e (u : FieldsTDEM) (v : 'cV[K]_nE) (i : nat) : result FieldsTDEM :=
  if (i < size (e_hist u))%N then Ok (mkFields (b0 u) (set_nth 0 (e_hist u) i v) (b_hist u))
  else Raise IndexError.

Definition set_b (u : FieldsTDEM) (v : 'cV[K]_nF) (i : nat) : result FieldsTDEM :=
  if (i < size (b_hist u))%N then Ok (mkFields (b0 u) (e_hist u) (set_nth 0 (b_hist u) i v))
  else Raise IndexError.

(** ** Internal methods *)

(** [getA(tInd)]. *)
Definition getA (tInd : nat) : Method 'M[K]_nF :=
  do dt <- getDt tInd;
  do Mf <- self_MfMui;
  do msh <- self_mesh;
  do MeI <- self_MeSigmaI;
  do Mf' <- self_MfMui;
  do Mf'' <- self_MfMui;
  ret (Mf *m edgeCurl msh *m MeI *m (edgeCurl msh)^T *m Mf' + (1 / dt) *: Mf'').

(** [getRHS(tInd, F)]. *)
Definition getRHS (tInd : nat) (F : FieldsTDEM) : Method 'cV[K]_nF :=
  do dt <- getDt tInd;
  do Mf <- self_MfMui;
  do bprev <- lift (get_b F (tInd%:Z - 1));
  ret ((1 / dt) *: Mf *m bprev).

(** ** The time-stepping driver of the base class *)

(** The dictionary [{'b': b, 'e': e}] a field rule returns. *)
Record NewFields : Type := mkNewFields {
  new_b : 'cV[K]_nF;
  new_e : 'cV[K]_nE
}.

(** Modelled from the spec: the forward field rule [calcFields] of the base
    class is not part of the sources; after solving for [b],
    [e = MeSigmaI * edgeCurl.T * MfMui * b]. *)
Definition calcFields (sol : 'cV[K]_nF) (solType : SolType) (tInd : nat)
  : Method NewFields :=
  let b := sol in
  do MeI <- self_MeSigmaI;
  do msh <- self_mesh;
  do Mf <- self_MfMui;
  ret (mkNewFields b (MeI *m (edgeCurl msh)^T *m Mf *m b)).

(** Modelled from the spec: the linear solver is an external collaborator.
    It returns the solution of [A x = rhs], and a singular system is
    surfaced as a failure. *)
Definition solve (A : 'M[K]_nF) (rhs : 'cV[K]_nF) : result 'cV[K]_nF :=
  if A \in unitmx then Ok (invmx A *m rhs) else Raise LinAlgError.

(** Modelled from the spec: storing the two fields of a step into the
    history. *)
Definition update (F : FieldsTDEM) (newFields : NewFields) (tInd : nat)
  : result FieldsTDEM :=
  match set_b F (new_b newFields) tInd with
  | Ok F' => set_e F' (new_e newFields) tInd
  | Raise e => Raise e
  end.

(** Modelled from the spec: one step of the time-stepping driver, which
    solves [A(tInd) b[tInd] = rhs(tInd)], derives the fields of the step from
    the field rule and stores them into the history. *)
Definition fields_step
    (RHS : nat -> FieldsTDEM -> Method 'cV[K]_nF)
    (CalcFields : 'cV[K]_nF -> SolType -> nat -> Method NewFields)
    (tInd : nat) (F : FieldsTDEM) : Method FieldsTDEM :=
  do A <- getA tInd;
  do rhs <- RHS tInd F;
  do sol <- lift (solve A rhs);
  do newFields <- CalcFields sol solType_b tInd;
  lift (update F newFields tInd).

(** Modelled from the spec: [fields(m, useThisRhs, useThisCalcFields)] of the
    base class is not part of the sources.  It rebuilds the mass matrices of
    [m] and runs the steps [tInd = 0 .. nSteps-1] in order on a fresh history.
    The right-hand side builder and the field rule are [getRHS] and
    [calcFields] unless the caller injects others. *)
Definition fields (m : 'cV[K]_nP)
    (useThisRhs : option (nat -> FieldsTDEM -> Method 'cV[K]_nF))
    (useThisCalcFields : option ('cV[K]_nF -> SolType -> nat -> Method NewFields))
  : Method FieldsTDEM :=
  let RHS := if useThisRhs is Some f then f else getRHS in
  let CalcFields := if useThisCalcFields is Some f then f else calcFields in
  run makeMassMatrices m;
  do nT <- times_size;
  forM (iota 0 nT) (fields_step RHS CalcFields) (newFieldsTDEM nT).

(** ** Derivatives *)

(** The inner loop of [G], over the columns [j] of [ei]:
    [pVal[:,j] = -ei[:,j]*c], an elementwise product with the vector [c]. *)
Definition G_pVal (k : nat) (ei : 'M[K]_(nE, k)) (c : 'cV[K]_nE) : 'M[K]_(nE, k) :=
  \matrix_(r, j) (- ei r j * c r 0).

(** [G(m, v, u=None)]. *)
Definition G (m : 'cV[K]_nP) (v : 'cV[K]_nP) (u : option FieldsTDEM)
  : Method FieldsTDEM :=
  do u <- (if u is Some u' then ret u' else fields m None None);
  do nT <- times_size;
  let p := newFieldsTDEM nT in
  do msh <- self_mesh;
  do mdl <- self_model;
  let c := getEdgeMassDeriv msh *m transformDeriv mdl m *m v in
  do nT' <- times_size;
  forM (iota 0 nT')
    (fun i p =>
       do ei <- lift (get_e u i);
       let pVal := G_pVal ei c in
       do p' <- lift (set_e p pVal i);
       lift (set_b p' 0 i))
    p.

(** [solveAh(m, p)], with its two closures over [self] and [p]. *)
Definition AhRHS (p : FieldsTDEM) (tInd : nat) (u : FieldsTDEM) : Method 'cV[K]_nF :=
  do Mf <- self_MfMui;
  do msh <- self_mesh;
  do MeI <- self_MeSigmaI;
  do pe <- lift (get_e p tInd);
  do Mf' <- self_MfMui;
  do pb <- lift (get_b p tInd%:Z);
  let rhs := Mf *m edgeCurl msh *m MeI *m pe + Mf' *m pb in
  if tInd == 0%N then ret rhs
  else
    do dt <- getDt tInd;
    do Mf'' <- self_MfMui;
    do bprev <- lift (get_b u (tInd%:Z - 1));
    ret (rhs + (1 / dt) *: Mf'' *m bprev).

Definition AhCalcFields (p : FieldsTDEM) (sol : 'cV[K]_nF) (solType : SolType)
    (tInd : nat) : Method NewFields :=
  let b := sol in
  do MeI <- self_MeSigmaI;
  do msh <- self_mesh;
  do Mf <- self_MfMui;
  do MeI' <- self_MeSigmaI;
  do pe <- lift (get_e p tInd);
  ret (mkNewFields b (MeI *m (edgeCurl msh)^T *m Mf *m b - MeI' *m pe)).

Definition solveAh (m : 'cV[K]_nP) (p : FieldsTDEM) : Method FieldsTDEM :=
  do Y <- fields m (Some (AhRHS p)) (Some (AhCalcFields p));
  ret Y.

(** ** Functions for tests *)

(** [AhVec(m, u=None)]. *)
Definition AhVec (m : 'cV[K]_nP) (u : option FieldsTDEM) : Method FieldsTDEM :=
  do u <- (if u is Some u' then ret u' else fields m None None);
  run makeMassMatrices m;
  do dt <- getDt 0;
  do ub <- lift (get_b u 0%:Z);
  do msh <- self_mesh;
  do ue <- lift (get_e u 0);
  let b := (1 / dt) *: ub + edgeCurl msh *m ue in
  do msh' <- self_mesh;
  do Mf <- self_MfMui;
  do ub' <- lift (get_b u 0%:Z);
  do Me <- self_MeSigma;
  do ue' <- lift (get_e u 0);
  let e := (edgeCurl msh')^T *m Mf *m ub' - Me *m ue' in
  do nT <- times_size;
  let f := newFieldsTDEM nT in
  do f1 <- lift (set_b f b 0);
  do f2 <- lift (set_e f1 e 0);
  do nT' <- times_size;
  forM (iota 1 (nT' - 1))
    (fun i f =>
       do dt <- getDt i;
       do ub <- lift (get_b u i%:Z);
       do msh <- self_mesh;
       do ue <- lift (get_e u i);
       do ubprev <- lift (get_b u (i%:Z - 1));
       let b := (1 / dt) *: ub + edgeCurl msh *m ue - (1 / dt) *: ubprev in
       do msh' <- self_mesh;
       do Mf <- self_MfMui;
       do ub' <- lift (get_b u i%:Z);
       do Me <- self_MeSigma;
       do ue' <- lift (get_e u i);
       let e := (edgeCurl msh')^T *m Mf *m ub' - Me *m ue' in
       do f' <- lift (set_b f b i);
       lift (set_e f' e i))
    f2.

(** ** The formulas of the specification *)

(** The system matrix of a step of size [dt], as the specification words it:
    [MfMui * curl * MeSigmaI * curl^T * MfMui + (1/dt) * MfMui]. *)
Definition systemMatrix (msh : Mesh) (mm : MassMatrices) (dt : K) : 'M[K]_nF :=
  MfMui mm *m edgeCurl msh *m MeSigmaI mm *m (edgeCurl msh)^T *m MfMui mm
  + (1 / dt) *: MfMui mm.

(** The state of [self] once the mass matrices of [m] have been assigned. *)
Definition built (self : ProblemTDEM_b) (m : 'cV[K]_nP) : ProblemTDEM_b :=
  mkProblem (mesh self) (model self) (timeSteps self) (massBuilder self)
    (Some (massBuilder self m)).

(** The history [F] with the fields of time index [i] overwritten. *)
Definition write (F : FieldsTDEM) (i : nat) (ve : 'cV[K]_nE) (vb : 'cV[K]_nF)
  : FieldsTDEM :=
  mkFields (b0 F) (set_nth 0 (e_hist F) i ve) (set_nth 0 (b_hist F) i vb).

(** The residuals of the governing equations, as the specification words
    them: [b_residual[i] = (1/dt)*u.b[i] + curl*u.e[i] - (1/dt)*u.b[i-1]], the
    [i-1] term dropped at [i = 0], and
    [e_residual[i] = curl^T*MfMui*u.b[i] - MeSigma*u.e[i]]. *)
Definition b_residual (msh : Mesh) (dts : seq K) (u : FieldsTDEM) (i : nat)
  : 'cV[K]_nF :=
  let dt := nth 0 dts i in
  match i with
  | 0%N => (1 / dt) *: nth 0 (b_hist u) i + edgeCurl msh *m nth 0 (e_hist u) i
  | i'.+1 => (1 / dt) *: nth 0 (b_hist u) i + edgeCurl msh *m nth 0 (e_hist u) i
             - (1 / dt) *: nth 0 (b_hist u) i'
  end.

Definition e_residual (msh : Mesh) (mm : MassMatrices) (u : FieldsTDEM) (i : nat)
  : 'cV[K]_nE :=
  (edgeCurl msh)^T *m MfMui mm *m nth 0 (b_hist u) i - MeSigma mm *m nth 0 (e_hist u) i.

(** The vector [c] of [G]: the direction [v] mapped into edge space. *)
Definition G_c (msh : Mesh) (mdl : Model) (m v : 'cV[K]_nP) : 'cV[K]_nE :=
  getEdgeMassDeriv msh *m transformDeriv mdl m *m v.

(** Field histories combined componentwise: [a * p] and [p + q]. *)
Definition scaleF (a : K) (p : FieldsTDEM) : FieldsTDEM :=
  mkFields (a *: b0 p) [seq a *: x | x <- e_hist p] [seq a *: x | x <- b_hist p].

Definition addF (p q : FieldsTDEM) : FieldsTDEM :=
  mkFields (b0 p + b0 q)
    [seq x.1 + x.2 | x <- zip (e_hist p) (e_hist q)]
    [seq x.1 + x.2 | x <- zip (b_hist p) (b_hist q)].

(** The history [G] builds from [c] and [u] over [nT] time steps, in closed
    form. *)
Definition G_result (c : 'cV[K]_nE) (u : FieldsTDEM) (nT : nat) : FieldsTDEM :=
  mkFields 0 (mkseq (fun i => G_pVal (nth 0 (e_hist u) i) c) nT) (nseq nT 0).

(** The history [AhVec] builds from [u] over [nT] time steps, in closed form:
    the residuals of every time index. *)
Definition AhVec_result (msh : Mesh) (mm : MassMatrices) (dts : seq K)
    (u : FieldsTDEM) (nT : nat) : FieldsTDEM :=
  mkFields 0 (mkseq (e_residual msh mm u) nT) (mkseq (b_residual msh dts u) nT).

(** The right-hand side and the field rule of [solveAh], as the specification
    words them: at step [tInd],
    [MfMui*curl*MeSigmaI*p.e[tInd] + MfMui*p.b[tInd]], plus
    [(1/dt)*MfMui*b[tInd-1]] for [tInd > 0]; and
    [e[tInd] = MeSigmaI*curl^T*MfMui*b[tInd] - MeSigmaI*p.e[tInd]]. *)
Definition Ah_rhs (msh : Mesh) (mm : MassMatrices) (dts : seq K)
    (p Y : FieldsTDEM) (tInd : nat) : 'cV[K]_nF :=
  let rhs := MfMui mm *m edgeCurl msh *m MeSigmaI mm *m nth 0 (e_hist p) tInd
             + MfMui mm *m nth 0 (b_hist p) tInd in
  match tInd with
  | 0%N => rhs
  | t'.+1 => rhs + (1 / nth 0 dts tInd) *: MfMui mm *m nth 0 (b_hist Y) t'
  end.

Definition Ah_rule (msh : Mesh) (mm : MassMatrices) (p : FieldsTDEM)
    (b : 'cV[K]_nF) (tInd : nat) : 'cV[K]_nE :=
  MeSigmaI mm *m (edgeCurl msh)^T *m MfMui mm *m b
  - MeSigmaI mm *m nth 0 (e_hist p) tInd.

End TDEM.

Notation "'do' x <- c ; k" := (bind c (fun x => k))
  (at level 200, x name, c at level 100, k at level 200, right associativity,
   format "'[v' 'do'  x  <-  c ; '/' k ']'").

Notation "'run' c ; k" := (bind c (fun _ => k))
  (at level 200, c at level 100, k at level 200, right associativity,
   format "'[v' 'run'  c ; '/' k ']'").

(** ** A worked instance

    One edge, one face, one cell and one model parameter over the rationals:
    every operator is a 1 x 1 matrix [a%:M].  The conductivity of the cell
    is the model parameter itself, and the edge mass matrix is that
    conductivity. *)

Definition mesh1 : Mesh rat 1 1 1 := mkMesh (1%:M) (1%:M).

Definition model1 : Model rat 1 1 := mkModel (fun _ => 1%:M).

Definition massBuilder1 (m : 'cV[rat]_1) : MassMatrices rat 1 1 :=
  mkMassMatrices ((m 0 0)%:M) ((m 0 0)^-1%:M) (1%:M).

(** A problem with the given step sizes whose mass matrices are unset. *)
Definition problem1 (dts : seq rat) : ProblemTDEM_b rat 1 1 1 1 :=
  mkProblem mesh1 model1 dts massBuilder1 None.

(** A history of the given "e" and "b" values, one per time step. *)
Definition history1 (es bs : seq rat) : FieldsTDEM rat 1 1 :=
  mkFields 0 [seq x%:M | x <- es] [seq x%:M | x <- bs].

(** ** Running a method *)

Section Theory.

Variable K : fieldType.
Variables nE nF nC nP : nat.

Implicit Types (self : ProblemTDEM_b K nE nF nC nP).
Implicit Types (mm : MassMatrices K nE nF).
Implicit Types (u p F Y : FieldsTDEM K nE nF).
Implicit Types (m v : 'cV[K]_nP).
Implicit Types (tInd i k n : nat).

Lemma self_mass_built self mm :
  mass self = Some mm -> self_mass self = (Ok mm, self).
Proof. by rewrite /self_mass => ->. Qed.

Lemma self_MfMui_built self mm :
  mass self = Some mm -> self_MfMui self = (Ok (MfMui mm), self).
Proof. by move=> Hm; rewrite /self_MfMui /bind (self_mass_built Hm). Qed.

Lemma self_MeSigmaI_built self mm :
  mass self = Some mm -> self_MeSigmaI self = (Ok (MeSigmaI mm), self).
Proof. by move=> Hm; rewrite /self_MeSigmaI /bind (self_mass_built Hm). Qed.

Lemma self_MeSigma_built self mm :
  mass self = Some mm -> self_MeSigma self = (Ok (MeSigma mm), self).
Proof. by move=> Hm; rewrite /self_MeSigma /bind (self_mass_built Hm). Qed.

Ltac attrs Hm :=
  rewrite /bind /self_mesh /self_model /times_size /lift /ret
    ?(self_MfMui_built Hm, self_MeSigmaI_built Hm, self_MeSigma_built Hm).

Lemma getDt_in self tInd :
  (tInd < size (timeSteps self))%N ->
  getDt tInd self = (Ok (nth 0 (timeSteps self) tInd), self).
Proof. by rewrite /getDt => ->. Qed.

Lemma getA_built self mm tInd dt :
  mass self = Some mm -> getDt tInd self = (Ok dt, self) ->
  getA tInd self = (Ok (systemMatrix (mesh self) mm dt), self).
Proof. by move=> Hm Hdt; rewrite /getA /bind Hdt; attrs Hm. Qed.

Lemma pred_int k : k.+1%:Z - 1 = k%:Z.
Proof. by rewrite intS addrC addKr. Qed.

Lemma get_b_prev F k :
  (k < size (b_hist F))%N -> get_b F (k.+1%:Z - 1) = Ok (nth 0 (b_hist F) k).
Proof. by move=> Hk; rewrite pred_int /get_b Hk. Qed.

Lemma get_b_initial F : get_b F (0%:Z - 1) = Ok (b0 F).
Proof. by []. Qed.

Lemma getRHS_built self mm F tInd dt bprev :
  mass self = Some mm -> getDt tInd self = (Ok dt, self) ->
  get_b F (tInd%:Z - 1) = Ok bprev ->
  getRHS tInd F self = (Ok ((1 / dt) *: MfMui mm *m bprev), self).
Proof. by move=> Hm Hdt Hb; rewrite /getRHS /bind Hdt; attrs Hm; rewrite Hb. Qed.

(** ** The system matrix and the forward right-hand side *)

(** C2: with the mass matrices assigned and [dt = getDt(tInd)], [getA(tInd)]
    returns [MfMui*edgeCurl*MeSigmaI*edgeCurl.T*MfMui + (1/dt)*MfMui], built
    from the mass matrices of [self] and the curl of its mesh, and leaves
    [self] as it was. *)
Theorem getA_spec self mm tInd dt :
  mass self = Some mm -> getDt tInd self = (Ok dt, self) ->
  getA tInd self =
    (Ok (MfMui mm *m edgeCurl (mesh self) *m MeSigmaI mm *m (edgeCurl (mesh self))^T
           *m MfMui mm + (1 / dt) *: MfMui mm), self).
Proof. exact: getA_built. Qed.

(** C8: at a time index of the mesh, the matrix [getA(tInd)] returns is its own
    transpose when [MfMui] and [MeSigmaI] are symmetric. *)
Theorem getA_symmetric self mm tInd :
  mass self = Some mm -> (tInd < size (timeSteps self))%N ->
  (MfMui mm)^T = MfMui mm -> (MeSigmaI mm)^T = MeSigmaI mm ->
  exists A, getA tInd self = (Ok A, self) /\ A^T = A.
Proof.
move=> Hm Ht HMf HMe; exists (systemMatrix (mesh self) mm (nth 0 (timeSteps self) tInd)).
split; first exact: (getA_built Hm (getDt_in Ht)).
by rewrite /systemMatrix linearD linearZ /= !trmx_mul trmxK HMf HMe !mulmxA.
Qed.

(** C6: [getRHS(tInd, F)] is [(1/dt)*MfMui*F.b[tInd-1]]; the previous step of a
    later index is the stored "b" of the index before, and at [tInd = 0] it is
    the initial condition of the history, so that the right-hand side is zero
    when none was seeded. *)
Theorem getRHS_spec self mm F tInd dt :
  mass self = Some mm -> getDt tInd self = (Ok dt, self) ->
  [/\ forall bprev, get_b F (tInd%:Z - 1) = Ok bprev ->
        getRHS tInd F self = (Ok ((1 / dt) *: MfMui mm *m bprev), self),
      forall k, tInd = k.+1 -> (k < size (b_hist F))%N ->
        get_b F (tInd%:Z - 1) = Ok (nth 0 (b_hist F) k),
      tInd = 0%N -> get_b F (tInd%:Z - 1) = Ok (b0 F) &
      tInd = 0%N -> b0 F = 0 -> getRHS tInd F self = (Ok 0, self)].
Proof.
move=> Hm Hdt; split.
- by move=> bprev; apply: getRHS_built.
- by move=> k ->; apply: get_b_prev.
- by move=> ->; exact: get_b_initial.
- move=> Ht H0; have Hb : get_b F (tInd%:Z - 1) = Ok (b0 F).
    by rewrite Ht; exact: get_b_initial.
  by rewrite (getRHS_built Hm Hdt Hb) H0 mulmx0.
Qed.

(** ** The closures of [solveAh] *)

Lemma AhRHS_first self mm p u pe pb :
  mass self = Some mm -> get_e p 0 = Ok pe -> get_b p 0%:Z = Ok pb ->
  AhRHS p 0 u self =
    (Ok (MfMui mm *m edgeCurl (mesh self) *m MeSigmaI mm *m pe + MfMui mm *m pb), self).
Proof. by move=> Hm He Hb; rewrite /AhRHS; attrs Hm; rewrite He Hb. Qed.

Lemma AhRHS_later self mm p u k pe pb dt :
  mass self = Some mm -> get_e p k.+1 = Ok pe -> get_b p k.+1%:Z = Ok pb ->
  getDt k.+1 self = (Ok dt, self) -> (k < size (b_hist u))%N ->
  AhRHS p k.+1 u self =
    (Ok (MfMui mm *m edgeCurl (mesh self) *m MeSigmaI mm *m pe + MfMui mm *m pb
         + (1 / dt) *: MfMui mm *m nth 0 (b_hist u) k), self).
Proof.
move=> Hm He Hb Hdt Hk; rewrite /AhRHS (get_b_prev Hk); attrs Hm.
by rewrite He Hb /= Hdt; attrs Hm.
Qed.

Lemma AhCalcFields_built self mm p sol st tInd pe :
  mass self = Some mm -> get_e p tInd = Ok pe ->
  AhCalcFields p sol st tInd self =
    (Ok (mkNewFields sol
           (MeSigmaI mm *m (edgeCurl (mesh self))^T *m MfMui mm *m sol
            - MeSigmaI mm *m pe)), self).
Proof. by move=> Hm He; rewrite /AhCalcFields; attrs Hm; rewrite He. Qed.

(** C10: at [tInd = 0] the right-hand side of [solveAh] is the perturbation
    terms [MfMui*edgeCurl*MeSigmaI*p.e[0] + MfMui*p.b[0]] alone, whatever the
    history under construction holds; and at no time index does the result
    depend on what that history holds at index [-1]. *)
Theorem AhRHS_never_reads_initial self mm p pe pb :
  mass self = Some mm -> get_e p 0 = Ok pe -> get_b p 0%:Z = Ok pb ->
  (forall u, AhRHS p 0 u self =
     (Ok (MfMui mm *m edgeCurl (mesh self) *m MeSigmaI mm *m pe + MfMui mm *m pb),
      self))
  /\ (forall tInd u seed,
        AhRHS p tInd (mkFields seed (e_hist u) (b_hist u)) self = AhRHS p tInd u self).
Proof.
move=> Hm He Hb; split; first by move=> u; apply: AhRHS_first.
by case=> [|k] u seed //; rewrite /AhRHS pred_int.
Qed.

(** ** Stale mass matrices *)

Lemma getA_unset self tInd :
  mass self = None -> exists e, getA tInd self = (Raise e, self).
Proof.
move=> Hm; rewrite /getA /bind /getDt.
case: ifP => _; last by exists IndexError.
by exists AttributeError; rewrite /self_MfMui /bind /self_mass Hm.
Qed.

Lemma getRHS_unset self tInd F :
  mass self = None -> exists e, getRHS tInd F self = (Raise e, self).
Proof.
move=> Hm; rewrite /getRHS /bind /getDt.
case: ifP => _; last by exists IndexError.
by exists AttributeError; rewrite /self_MfMui /bind /self_mass Hm.
Qed.

(** C9, as amended: [getA] and [getRHS] raise while no mass matrices have
    been assigned to [self]; once [makeMassMatrices] has run for some model
    [m0], at a time index of the mesh they return the system matrix and the
    right-hand side of the mass matrices of [m0], with no check of the model
    those were built for. *)
Theorem getA_getRHS_mass_guard self tInd F m0 :
  [/\ mass self = None ->
        (exists e, getA tInd self = (Raise e, self))
        /\ (exists e, getRHS tInd F self = (Raise e, self)),
      (tInd < size (timeSteps self))%N ->
        getA tInd (built self m0) =
          (Ok (systemMatrix (mesh self) (massBuilder self m0)
                 (nth 0 (timeSteps self) tInd)), built self m0)
    & (tInd < size (timeSteps self))%N ->
      forall bprev, get_b F (tInd%:Z - 1) = Ok bprev ->
        getRHS tInd F (built self m0) =
          (Ok ((1 / nth 0 (timeSteps self) tInd) *: MfMui (massBuilder self m0)
               *m bprev), built self m0)].
Proof.
have Hm : mass (built self m0) = Some (massBuilder self m0) by [].
split=> [Hnone|Ht|Ht bprev Hb].
- by split; [apply: getA_unset | apply: getRHS_unset].
- by rewrite (getA_built Hm (getDt_in _)).
- by rewrite (getRHS_built Hm (getDt_in _) Hb).
Qed.

(** ** Loops that write one time index per iteration *)

Lemma size_write F i ve vb :
  (i < size (e_hist F))%N -> (i < size (b_hist F))%N ->
  size (e_hist (write F i ve vb)) = size (e_hist F)
  /\ size (b_hist (write F i ve vb)) = size (b_hist F).
Proof.
by move=> He Hb; rewrite /= !size_set_nth; split; apply/maxn_idPr.
Qed.

Lemma forM_cat (X : Type) (s1 s2 : seq nat) (body : nat -> X -> Method K nE nF nC nP X)
    (x : X) self :
  forM (s1 ++ s2) body x self =
    (do x' <- forM s1 body x; forM s2 body x') self.
Proof.
elim: s1 x self => [|i s1 IH] x self //=.
by rewrite /bind; case: (body i x self) => [[x'|e] self'] //; rewrite IH.
Qed.

(** A loop whose iteration [i] overwrites time index [i] with values that
    depend on [i] alone. *)
Lemma forM_write (body : nat -> FieldsTDEM K nE nF -> Method K nE nF nC nP (FieldsTDEM K nE nF))
    (fe : nat -> 'cV[K]_nE) (fb : nat -> 'cV[K]_nF) self nT (s : seq nat) :
  (forall i f, i \in s -> size (e_hist f) = nT -> size (b_hist f) = nT ->
     body i f self = (Ok (write f i (fe i) (fb i)), self)) ->
  all (fun i => i < nT)%N s ->
  forall f, size (e_hist f) = nT -> size (b_hist f) = nT ->
  exists f',
    [/\ forM s body f self = (Ok f', self),
        size (e_hist f') = nT /\ size (b_hist f') = nT, b0 f' = b0 f,
        forall j, nth 0 (e_hist f') j = if j \in s then fe j else nth 0 (e_hist f) j &
        forall j, nth 0 (b_hist f') j = if j \in s then fb j else nth 0 (b_hist f) j].
Proof.
elim: s => [|i s IH] Hbody /=; first by move=> _ f He Hb; exists f; split.
case/andP=> Hi Hs f He Hb.
have [He1 Hb1] : size (e_hist (write f i (fe i) (fb i))) = nT
                 /\ size (b_hist (write f i (fe i) (fb i))) = nT.
  have Hie : (i < size (e_hist f))%N by rewrite He.
  have Hib : (i < size (b_hist f))%N by rewrite Hb.
  by have [-> ->] := size_write (fe i) (fb i) Hie Hib.
have Hbody' : forall i' f', i' \in s -> size (e_hist f') = nT ->
    size (b_hist f') = nT -> body i' f' self = (Ok (write f' i' (fe i') (fb i')), self).
  by move=> i' f' Hi'; apply: Hbody; rewrite in_cons Hi' orbT.
have [f' [Hrun Hsz H0 Hne Hnb]] := IH Hbody' Hs _ He1 Hb1.
exists f'; split=> //.
- by rewrite /bind (Hbody i f _ He Hb) ?mem_head.
- move=> j; rewrite Hne in_cons /= nth_set_nth /=.
  by case: (j \in s); rewrite ?orbT // orbF; case: eqP => // ->.
- move=> j; rewrite Hnb in_cons /= nth_set_nth /=.
  by case: (j \in s); rewrite ?orbT // orbF; case: eqP => // ->.
Qed.

Ltac sizes :=
  rewrite ?(size_map, size_zip, size_mkseq, size_nseq, size_iota, minnn).

Lemma fields_eq F1 F2 :
  b0 F1 = b0 F2 -> size (e_hist F1) = size (e_hist F2) ->
  size (b_hist F1) = size (b_hist F2) ->
  (forall j, (j < size (e_hist F1))%N -> nth 0 (e_hist F1) j = nth 0 (e_hist F2) j) ->
  (forall j, (j < size (b_hist F1))%N -> nth 0 (b_hist F1) j = nth 0 (b_hist F2) j) ->
  F1 = F2.
Proof.
case: F1 => [z1 e1 b1]; case: F2 => [z2 e2 b2] /= -> Hse Hsb He Hb.
by congr mkFields; [apply: (eq_from_nth (x0 := 0)) | apply: (eq_from_nth (x0 := 0))].
Qed.

(** ** The forcing term [G] *)

Lemma G_run self m v u :
  (size (timeSteps self) <= size (e_hist u))%N ->
  G m v (Some u) self =
    (Ok (G_result (G_c (mesh self) (model self) m v) u (size (timeSteps self))), self).
Proof.
move=> Hu; rewrite /G /bind /ret /times_size /self_mesh /self_model -/(G_c _ _ _ _).
set c := G_c _ _ _ _; set nT := size _ in Hu *; set body := (X in forM _ X).
have Hbody : forall i f, i \in iota 0 nT -> size (e_hist f) = nT ->
    size (b_hist f) = nT ->
    body i f self = (Ok (write f i (G_pVal (nth 0 (e_hist u) i) c) 0), self).
  move=> i f; rewrite mem_iota add0n /= => Hi He Hb.
  by rewrite /body /bind /lift /get_e (leq_trans Hi Hu) /set_e He Hi /set_b /= Hb Hi.
have Hall : all (fun i => i < nT)%N (iota 0 nT).
  by apply/allP => i; rewrite mem_iota add0n.
have [f' [-> [Hse Hsb] H0 Hne Hnb]] :=
  forM_write Hbody Hall (f := newFieldsTDEM K nE nF nT) (size_nseq _ _) (size_nseq _ _).
congr (Ok _, _); apply: fields_eq; rewrite /= ?size_mkseq ?size_nseq //.
- by move=> j; rewrite Hse => Hj; rewrite Hne nth_mkseq // mem_iota add0n Hj.
- by move=> j; rewrite Hsb => Hj; rewrite Hnb nth_nseq Hj mem_iota add0n Hj.
Qed.

(** C5: [G(m, v, u)] returns a history [p] in which, at every time index [i],
    the "e" field is [-u.e[i]] multiplied entry by entry, in each column, by
    [c = getEdgeMassDeriv() * transformDeriv(m) * v], and the "b" field is
    zero. *)
Theorem G_spec self m v u :
  (size (timeSteps self) <= size (e_hist u))%N ->
  exists p,
    G m v (Some u) self = (Ok p, self)
    /\ forall i, (i < size (timeSteps self))%N ->
       (exists2 pe, get_e p i = Ok pe
          & forall r j, pe r j =
              - (nth 0 (e_hist u) i) r j
              * (getEdgeMassDeriv (mesh self) *m transformDeriv (model self) m *m v) r 0)
       /\ get_b p i%:Z = Ok 0.
Proof.
move=> Hu; eexists; split; first exact: G_run.
move=> i Hi; rewrite /get_e /get_b /= size_mkseq size_nseq Hi nth_nseq Hi; split=> //.
eexists; first by reflexivity.
by move=> r j; rewrite nth_mkseq // mxE.
Qed.

Lemma G_pVal_linear k (ei : 'M[K]_(nE, k)) (a b : K) (c1 c2 : 'cV[K]_nE) :
  G_pVal ei (a *: c1 + b *: c2) = a *: G_pVal ei c1 + b *: G_pVal ei c2.
Proof.
apply/matrixP => r j; rewrite !mxE mulrDr; congr (_ + _).
- by rewrite mulrCA.
- by rewrite mulrCA.
Qed.

Lemma G_c_linear (msh : Mesh K nE nF nC) (mdl : Model K nC nP) m (a b : K) v1 v2 :
  G_c msh mdl m (a *: v1 + b *: v2) = a *: G_c msh mdl m v1 + b *: G_c msh mdl m v2.
Proof. by rewrite /G_c mulmxDr -!scalemxAr. Qed.

(** C7: [G] is linear in its direction: for a history [u] that covers the time
    mesh, [G(m, a*v1 + b*v2, u)] is [a*G(m, v1, u) + b*G(m, v2, u)],
    componentwise over the histories. *)
Theorem G_linear self m u (a b : K) v1 v2 :
  (size (timeSteps self) <= size (e_hist u))%N ->
  exists p1 p2,
    [/\ G m v1 (Some u) self = (Ok p1, self),
        G m v2 (Some u) self = (Ok p2, self)
      & G m (a *: v1 + b *: v2) (Some u) self
        = (Ok (addF (scaleF a p1) (scaleF b p2)), self)].
Proof.
move=> Hu; do 2![eexists]; split; [exact: G_run | exact: G_run |].
rewrite (G_run _ _ Hu); congr (Ok _, _); apply: fields_eq => /=.
- by rewrite !scaler0 addr0.
- by sizes.
- by sizes.
- move=> j; sizes => Hj.
  rewrite (nth_map (0, 0)); first by sizes.
  rewrite nth_zip; try by sizes.
  rewrite /= !(nth_map 0); try by sizes.
  by rewrite G_c_linear G_pVal_linear.
- move=> j; sizes => Hj.
  rewrite (nth_map (0, 0)); first by sizes.
  rewrite nth_zip; try by sizes.
  rewrite /= !(nth_map 0); try by sizes.
  by rewrite !nth_nseq Hj !scaler0 addr0.
Qed.

(** ** The residual operator [AhVec] *)

Lemma get_b_in u i :
  (i < size (b_hist u))%N -> get_b u i%:Z = Ok (nth 0 (b_hist u) i).
Proof. by rewrite /get_b => ->. Qed.

Lemma get_e_in u i :
  (i < size (e_hist u))%N -> get_e u i = Ok (nth 0 (e_hist u) i).
Proof. by rewrite /get_e => ->. Qed.

Lemma update_in F i ve vb :
  (i < size (e_hist F))%N -> (i < size (b_hist F))%N ->
  update F (mkNewFields vb ve) i = Ok (write F i ve vb).
Proof. by move=> He Hb; rewrite /update /set_b Hb /set_e /= He. Qed.

Lemma AhVec_run self m u :
  (0 < size (timeSteps self))%N ->
  (size (timeSteps self) <= size (e_hist u))%N ->
  (size (timeSteps self) <= size (b_hist u))%N ->
  AhVec m (Some u) self =
    (Ok (AhVec_result (mesh self) (massBuilder self m) (timeSteps self) u
           (size (timeSteps self))), built self m).
Proof.
set nT := size _ => HnT Hue Hub.
have Hm : mass (built self m) = Some (massBuilder self m) by [].
have Hdt : forall i, (i < nT)%N ->
    getDt i (built self m) = (Ok (nth 0 (timeSteps self) i), built self m).
  by move=> i Hi; rewrite getDt_in.
have He : forall i, (i < nT)%N -> get_e u i = Ok (nth 0 (e_hist u) i).
  by move=> i Hi; rewrite get_e_in // (leq_trans Hi).
have Hb : forall i, (i < nT)%N -> get_b u i%:Z = Ok (nth 0 (b_hist u) i).
  by move=> i Hi; rewrite get_b_in // (leq_trans Hi).
rewrite /AhVec /bind /ret /makeMassMatrices -/(built self m) (Hdt 0%N HnT).
attrs Hm; rewrite (Hb 0%N HnT) (He 0%N HnT).
set f0 := newFieldsTDEM K nE nF _; rewrite -/nT in f0 *.
have Hf0e : size (e_hist f0) = nT by rewrite /= size_nseq.
have Hf0b : size (b_hist f0) = nT by rewrite /= size_nseq.
set b0' := (X in set_b _ X _).
have -> : set_b f0 b0' 0 = Ok (mkFields (b0 f0) (e_hist f0) (set_nth 0 (b_hist f0) 0 b0')).
  by rewrite /set_b Hf0b HnT.
set e0 := (X in set_e _ X _).
have -> : set_e (mkFields (b0 f0) (e_hist f0) (set_nth 0 (b_hist f0) 0 b0')) e0 0
          = Ok (write f0 0 e0 b0').
  by rewrite /set_e /= size_nseq HnT.
set body := (X in forM _ X).
have Hbody : forall i f, i \in iota 1 (nT - 1) -> size (e_hist f) = nT ->
    size (b_hist f) = nT ->
    body i f (built self m) =
      (Ok (write f i (e_residual (mesh self) (massBuilder self m) u i)
             (b_residual (mesh self) (timeSteps self) u i)), built self m).
  move=> i f; rewrite mem_iota subnKC //; case: i => [|i] //= Hi Hfe Hfb.
  rewrite /body /bind (Hdt _ Hi); attrs Hm.
  rewrite (Hb _ Hi) (He _ Hi) (get_b_prev (leq_trans (ltnW Hi) Hub)).
  by rewrite /set_b Hfb Hi /set_e /= Hfe Hi.
have Hall : all (fun i => i < nT)%N (iota 1 (nT - 1)).
  by apply/allP => i; rewrite mem_iota subnKC // => /andP[].
have [] := @size_write f0 0 e0 b0'; rewrite ?Hf0e ?Hf0b // => Hse Hsb.
have [f' [-> [Hfe Hfb] H0 Hne Hnb]] := forM_write Hbody Hall Hse Hsb.
congr (Ok _, _); apply: fields_eq; rewrite /= ?size_mkseq //.
- by move=> j; rewrite Hfe => Hj; rewrite Hne nth_mkseq // mem_iota subnKC // Hj andbT;
    case: j Hj => [|j] Hj //=; rewrite nth_set_nth.
- by move=> j; rewrite Hfb => Hj; rewrite Hnb nth_mkseq // mem_iota subnKC // Hj andbT;
    case: j Hj => [|j] Hj //=; rewrite nth_set_nth.
Qed.

(** C4: for a history [u] that covers a time mesh of at least one step,
    [AhVec(m, u)] rebuilds the mass matrices of [m] and returns a history whose
    "b" at every index [i] is [(1/dt_i)*u.b[i] + edgeCurl*u.e[i] -
    (1/dt_i)*u.b[i-1]], the last term dropped at [i = 0], and whose "e" is
    [edgeCurl.T*MfMui*u.b[i] - MeSigma*u.e[i]]. *)
Theorem AhVec_spec self m u :
  (0 < size (timeSteps self))%N ->
  (size (timeSteps self) <= size (e_hist u))%N ->
  (size (timeSteps self) <= size (b_hist u))%N ->
  exists f,
    AhVec m (Some u) self = (Ok f, built self m)
    /\ forall i, (i < size (timeSteps self))%N ->
       let dt := nth 0 (timeSteps self) i in
       let ub := nth 0 (b_hist u) i in
       let ue := nth 0 (e_hist u) i in
       get_b f i%:Z =
         Ok (if i is i'.+1
             then (1 / dt) *: ub + edgeCurl (mesh self) *m ue
                  - (1 / dt) *: nth 0 (b_hist u) i'
             else (1 / dt) *: ub + edgeCurl (mesh self) *m ue)
       /\ get_e f i =
            Ok ((edgeCurl (mesh self))^T *m MfMui (massBuilder self m) *m ub
                - MeSigma (massBuilder self m) *m ue).
Proof.
move=> HnT Hue Hub; eexists; split; first exact: AhVec_run.
by move=> i Hi /=; rewrite /get_e /= !size_mkseq Hi !nth_mkseq.
Qed.

(** ** The adjoint-system solve [solveAh] *)

Lemma solve_unit (A : 'M[K]_nF) (rhs : 'cV[K]_nF) :
  A \in unitmx -> solve A rhs = Ok (invmx A *m rhs).
Proof. by rewrite /solve => ->. Qed.

Lemma Ah_rhs_prev (msh : Mesh K nE nF nC) mm (dts : seq K) p Y Y' tInd :
  (forall j, (j < tInd)%N -> nth 0 (b_hist Y') j = nth 0 (b_hist Y) j) ->
  Ah_rhs msh mm dts p Y' tInd = Ah_rhs msh mm dts p Y tInd.
Proof. by case: tInd => [|t] // H; rewrite /Ah_rhs H. Qed.

(** One step of [solveAh] on a history of the length of the time mesh. *)
Lemma solveAh_step self mm p F tInd :
  let nT := size (timeSteps self) in
  let A := systemMatrix (mesh self) mm (nth 0 (timeSteps self) tInd) in
  let sol := invmx A *m Ah_rhs (mesh self) mm (timeSteps self) p F tInd in
  mass self = Some mm -> (tInd < nT)%N ->
  (nT <= size (e_hist p))%N -> (nT <= size (b_hist p))%N ->
  size (e_hist F) = nT -> size (b_hist F) = nT ->
  A \in unitmx ->
  fields_step (AhRHS p) (AhCalcFields p) tInd F self =
    (Ok (write F tInd (Ah_rule (mesh self) mm p sol tInd) sol), self).
Proof.
move=> nT A sol Hm Ht Hpe Hpb HFe HFb HA.
have Hge : get_e p tInd = Ok (nth 0 (e_hist p) tInd).
  by rewrite get_e_in // (leq_trans Ht).
have Hgb : get_b p tInd%:Z = Ok (nth 0 (b_hist p) tInd).
  by rewrite get_b_in // (leq_trans Ht).
have Hrhs : AhRHS p tInd F self =
    (Ok (Ah_rhs (mesh self) mm (timeSteps self) p F tInd), self).
  case: tInd Ht Hge Hgb {A sol HA} => [|k] Ht Hge Hgb.
    exact: AhRHS_first.
  by apply: AhRHS_later => //; [exact: getDt_in | rewrite HFb ltnW].
rewrite /fields_step /bind (getA_built Hm (getDt_in Ht)) Hrhs /lift.
rewrite (solve_unit _ HA) (AhCalcFields_built _ _ Hm Hge).
by rewrite update_in ?HFe ?HFb.
Qed.

(** The steps [k .. nT-1] of [solveAh]: they leave the indices below [k] as
    they were, and at every index from [k] on the stored "b" solves the
    system of the step and the stored "e" follows the field rule. *)
Lemma solveAh_loop self mm p :
  let nT := size (timeSteps self) in
  mass self = Some mm ->
  (nT <= size (e_hist p))%N -> (nT <= size (b_hist p))%N ->
  (forall t, (t < nT)%N ->
     systemMatrix (mesh self) mm (nth 0 (timeSteps self) t) \in unitmx) ->
  forall n k F, (k + n)%N = nT ->
  size (e_hist F) = nT -> size (b_hist F) = nT ->
  exists F',
    [/\ forM (iota k n) (fields_step (AhRHS p) (AhCalcFields p)) F self = (Ok F', self),
        size (e_hist F') = nT /\ size (b_hist F') = nT,
        b0 F' = b0 F,
        forall j, (j < k)%N ->
          nth 0 (e_hist F') j = nth 0 (e_hist F) j
          /\ nth 0 (b_hist F') j = nth 0 (b_hist F) j
      & forall j, (k <= j < nT)%N ->
          systemMatrix (mesh self) mm (nth 0 (timeSteps self) j) *m nth 0 (b_hist F') j
            = Ah_rhs (mesh self) mm (timeSteps self) p F' j
          /\ nth 0 (e_hist F') j = Ah_rule (mesh self) mm p (nth 0 (b_hist F') j) j].
Proof.
move=> nT Hm Hpe Hpb HA; elim=> [|n IH] k F Hk HFe HFb.
  exists F; split=> // j; rewrite -Hk addn0.
  by case/andP=> H1 H2; move: (leq_ltn_trans H1 H2); rewrite ltnn.
have Ht : (k < nT)%N by rewrite -Hk -addSnnS leq_addr.
set A := systemMatrix (mesh self) mm (nth 0 (timeSteps self) k).
set sol := invmx A *m Ah_rhs (mesh self) mm (timeSteps self) p F k.
set F1 := write F k (Ah_rule (mesh self) mm p sol k) sol.
have Hstep : fields_step (AhRHS p) (AhCalcFields p) k F self = (Ok F1, self).
  exact: solveAh_step (HA k Ht).
have [HF1e HF1b] : size (e_hist F1) = nT /\ size (b_hist F1) = nT.
  have Hke : (k < size (e_hist F))%N by rewrite HFe.
  have Hkb : (k < size (b_hist F))%N by rewrite HFb.
  by have [-> ->] := size_write (Ah_rule (mesh self) mm p sol k) sol Hke Hkb.
have Hk1 : (k.+1 + n)%N = nT by rewrite addSnnS.
have [F' [Hrun Hsz H0 Hlow Hhigh]] := IH k.+1 F1 Hk1 HF1e HF1b.
exists F'; split=> //.
- by rewrite /= /bind Hstep.
- move=> j Hj; have [-> ->] := Hlow j (ltnW Hj).
  by rewrite /= !nth_set_nth /= (ltn_eqF Hj).
- move=> j /andP[Hkj Hj]; move: Hkj; rewrite leq_eqVlt => /orP[/eqP Hjk|Hkj].
    rewrite -{j}Hjk in Hj *.
    have [He' Hb'] := Hlow k (ltnSn k).
    have Hbk : nth 0 (b_hist F') k = sol by rewrite Hb' /= nth_set_nth /= eqxx.
    have Hprev : Ah_rhs (mesh self) mm (timeSteps self) p F' k
                 = Ah_rhs (mesh self) mm (timeSteps self) p F k.
      apply: Ah_rhs_prev => i Hi; have [_ ->] := Hlow i (ltnW Hi).
      by rewrite /= nth_set_nth /= (ltn_eqF Hi).
    split.
      by rewrite Hbk Hprev /sol mulKVmx // (HA k Ht).
    by rewrite He' Hbk /= nth_set_nth /= eqxx.
  by apply: Hhigh; rewrite Hkj Hj.
Qed.

Lemma solveAh_run self m p :
  let nT := size (timeSteps self) in
  let mm := massBuilder self m in
  (nT <= size (e_hist p))%N -> (nT <= size (b_hist p))%N ->
  (forall t, (t < nT)%N ->
     systemMatrix (mesh self) mm (nth 0 (timeSteps self) t) \in unitmx) ->
  exists Y,
    [/\ solveAh m p self = (Ok Y, built self m),
        size (e_hist Y) = nT /\ size (b_hist Y) = nT
      & forall j, (j < nT)%N ->
          systemMatrix (mesh self) mm (nth 0 (timeSteps self) j) *m nth 0 (b_hist Y) j
            = Ah_rhs (mesh self) mm (timeSteps self) p Y j
          /\ nth 0 (e_hist Y) j = Ah_rule (mesh self) mm p (nth 0 (b_hist Y) j) j].
Proof.
move=> nT mm Hpe Hpb HA.
have Hm : mass (built self m) = Some mm by [].
have [Y [Hrun Hsz _ _ Hhigh]] :=
  @solveAh_loop (built self m) mm p Hm Hpe Hpb HA nT 0%N
    (newFieldsTDEM K nE nF nT) (add0n _) (size_nseq _ _) (size_nseq _ _).
exists Y; split=> //.
by rewrite /solveAh /fields /bind /makeMassMatrices -/(built self m) /times_size Hrun.
Qed.

(** C3: [solveAh(m, p)] is the time-stepping driver run with the closures
    [AhRHS] and [AhCalcFields]; when every step's system is solvable it returns
    a history [Y] in which, at every step [tInd], the matrix that [getA(tInd)]
    returns times [Y.b[tInd]] is
    [MfMui*edgeCurl*MeSigmaI*p.e[tInd] + MfMui*p.b[tInd]], plus
    [(1/dt)*MfMui*Y.b[tInd-1]] only when [tInd > 0], and
    [Y.e[tInd] = MeSigmaI*edgeCurl.T*MfMui*Y.b[tInd] - MeSigmaI*p.e[tInd]]. *)
Theorem solveAh_spec self m p :
  let nT := size (timeSteps self) in
  let mm := massBuilder self m in
  let msh := mesh self in
  (nT <= size (e_hist p))%N -> (nT <= size (b_hist p))%N ->
  (forall t, (t < nT)%N -> systemMatrix msh mm (nth 0 (timeSteps self) t) \in unitmx) ->
  solveAh m p self = fields m (Some (AhRHS p)) (Some (AhCalcFields p)) self
  /\ exists Y,
       solveAh m p self = (Ok Y, built self m)
       /\ forall tInd, (tInd < nT)%N ->
          let dt := nth 0 (timeSteps self) tInd in
          let rhs := MfMui mm *m edgeCurl msh *m MeSigmaI mm *m nth 0 (e_hist p) tInd
                     + MfMui mm *m nth 0 (b_hist p) tInd in
          exists A,
            [/\ getA tInd (built self m) = (Ok A, built self m),
                A *m nth 0 (b_hist Y) tInd =
                  (if tInd is t'.+1
                   then rhs + (1 / dt) *: MfMui mm *m nth 0 (b_hist Y) t'
                   else rhs)
              & nth 0 (e_hist Y) tInd =
                  MeSigmaI mm *m (edgeCurl msh)^T *m MfMui mm *m nth 0 (b_hist Y) tInd
                  - MeSigmaI mm *m nth 0 (e_hist p) tInd].
Proof.
move=> nT mm msh Hpe Hpb HA; split.
  by rewrite /solveAh /bind; case: (fields _ _ _ _) => [[Y|e] self'].
have [Y [Hrun _ HY]] := solveAh_run Hpe Hpb HA.
exists Y; split=> // tInd Ht dt rhs.
have Hm : mass (built self m) = Some mm by [].
have Hdt : getDt tInd (built self m) = (Ok dt, built self m) by rewrite getDt_in.
exists (systemMatrix msh mm dt); have [Hb He] := HY tInd Ht.
split; [exact: getA_built | by rewrite Hb | by rewrite He].
Qed.

Section ResidualAlgebra.

Variables (M : 'M[K]_nF) (C : 'M[K]_(nF, nE)) (SI S : 'M[K]_nE) (d : K).
Variables (ub ubp : 'cV[K]_nF) (ue : 'cV[K]_nE).
Hypothesis HI : SI *m S = 1%:M.

Lemma residual_first :
  M *m C *m SI *m (C^T *m M *m ub - S *m ue) + M *m (d *: ub + C *m ue)
  = (M *m C *m SI *m C^T *m M + d *: M) *m ub.
Proof.
rewrite mulmxBr mulmxDl mulmxDr -scalemxAr -scalemxAl !mulmxA.
rewrite -(mulmxA _ SI S) HI mulmx1.
by rewrite [d *: _ + _]addrC addrA subrK.
Qed.

Lemma residual_later :
  M *m C *m SI *m (C^T *m M *m ub - S *m ue) + M *m (d *: ub + C *m ue - d *: ubp)
  + d *: M *m ubp
  = (M *m C *m SI *m C^T *m M + d *: M) *m ub.
Proof.
rewrite [M *m (_ - _)]mulmxBr -[d *: M *m ubp]scalemxAl -[M *m (d *: ubp)]scalemxAr.
by rewrite -addrA subrK residual_first.
Qed.

End ResidualAlgebra.

Lemma Ah_rhs_residual (msh : Mesh K nE nF nC) mm (dts : seq K) u nT j :
  MeSigmaI mm *m MeSigma mm = 1%:M -> (j < nT)%N ->
  Ah_rhs msh mm dts (AhVec_result msh mm dts u nT) u j
  = systemMatrix msh mm (nth 0 dts j) *m nth 0 (b_hist u) j.
Proof.
move=> HI Hj; rewrite /Ah_rhs /systemMatrix /= !nth_mkseq // /e_residual.
case: j Hj => [|j] Hj; rewrite /b_residual.
  exact: residual_first.
exact: residual_later.
Qed.

(** C1: on a time mesh of at least one step, for a history [u] of the shape
    of the problem, a model whose [MeSigmaI] is the inverse of its [MeSigma]
    and whose system matrices are all invertible, [solveAh(m, AhVec(m, u))]
    returns a history with the "e" and "b" sequences of [u]. *)
Theorem solveAh_AhVec_roundtrip self m u :
  let nT := size (timeSteps self) in
  let mm := massBuilder self m in
  (0 < nT)%N -> size (e_hist u) = nT -> size (b_hist u) = nT ->
  MeSigmaI mm *m MeSigma mm = 1%:M ->
  (forall t, (t < nT)%N ->
     systemMatrix (mesh self) mm (nth 0 (timeSteps self) t) \in unitmx) ->
  exists Y,
    [/\ (do f <- AhVec m (Some u); solveAh m f) self = (Ok Y, built self m),
        e_hist Y = e_hist u & b_hist Y = b_hist u].
Proof.
move=> nT mm HnT Hue Hub HI HA.
set msh := mesh self; set dts := timeSteps self.
set f := AhVec_result msh mm dts u nT.
have Hfe : (nT <= size (e_hist f))%N by rewrite /= size_mkseq.
have Hfb : (nT <= size (b_hist f))%N by rewrite /= size_mkseq.
have [Y [] /= Hrun [HYe HYb] HY] := @solveAh_run (built self m) m f Hfe Hfb HA.
have Hb : forall j, (j < nT)%N -> nth 0 (b_hist Y) j = nth 0 (b_hist u) j.
  elim/ltn_ind=> j IH Hj; have [Hsys _] := HY j Hj.
  apply: (can_inj (mulKmx (HA j Hj))); rewrite Hsys -(Ah_rhs_residual msh dts u HI Hj).
  by apply: Ah_rhs_prev => i Hi; apply: IH => //; apply: ltn_trans Hj.
have He : forall j, (j < nT)%N -> nth 0 (e_hist Y) j = nth 0 (e_hist u) j.
  move=> j Hj; have [_ ->] := HY j Hj.
  rewrite (Hb j Hj) /Ah_rule /= nth_mkseq // /e_residual mulmxBr opprB addrC.
  by rewrite !mulmxA subrK -[_ *m MeSigma _ *m _]mulmxA mulmxA HI mul1mx.
exists Y; split.
- by rewrite /bind AhVec_run ?Hue ?Hub // Hrun.
- by apply: (eq_from_nth (x0 := 0)); rewrite HYe // => j; apply: He.
- by apply: (eq_from_nth (x0 := 0)); rewrite HYb // => j; apply: Hb.
Qed.

End Theory.

(** ** The worked instance *)

Lemma scalar1E (a : rat) : (a%:M : 'M[rat]_1) 0 0 = a.
Proof. by rewrite mxE eqxx mulr1n. Qed.

Lemma unit_scalar1 (a : rat) : a != 0 -> (a%:M : 'M[rat]_1) \in unitmx.
Proof. by move=> Ha; rewrite unitmxE det_scalar1 unitfE. Qed.

Lemma systemMatrix1 (m : 'cV[rat]_1) (dt : rat) :
  systemMatrix mesh1 (massBuilder1 m) dt = ((m 0 0)^-1 + 1 / dt)%:M.
Proof.
by rewrite /systemMatrix /= trmx1 !mulmx1 mul1mx scalemx1 -raddfD.
Qed.

Lemma massBuilder1_inverse (a : rat) :
  a != 0 ->
  MeSigmaI (massBuilder1 a%:M) *m MeSigma (massBuilder1 a%:M) = 1%:M.
Proof. by move=> Ha; rewrite /= -scalar_mxM scalar1E mulVf. Qed.

(** The instance the witnesses run on: time steps [1] and [2], conductivity
    [2], and a history with [e = 3, 5] and [b = 7, 11]. *)
Definition self1 : ProblemTDEM_b rat 1 1 1 1 := built (problem1 [:: 1; 2]) 2%:M.

Definition u1 : FieldsTDEM rat 1 1 := history1 [:: 3; 5] [:: 7; 11].

Lemma self1_solvable t :
  (t < size (timeSteps self1))%N ->
  systemMatrix (mesh self1) (massBuilder self1 2%:M) (nth 0 (timeSteps self1) t)
    \in unitmx.
Proof.
by case: t => [|[|t]] // _; rewrite systemMatrix1 scalar1E; apply: unit_scalar1.
Qed.

Lemma getA_spec_witness :
  getA 0 self1 =
    (Ok (MfMui (massBuilder1 2%:M) *m edgeCurl (mesh self1)
         *m MeSigmaI (massBuilder1 2%:M) *m (edgeCurl (mesh self1))^T
         *m MfMui (massBuilder1 2%:M) + (1 / 1) *: MfMui (massBuilder1 2%:M)), self1).
Proof. exact: (@getA_spec _ _ _ _ _ self1 (massBuilder1 2%:M) 0 1 erefl erefl). Defined.

Lemma getA_symmetric_witness : exists A, getA 1 self1 = (Ok A, self1) /\ A^T = A.
Proof.
apply: (@getA_symmetric _ _ _ _ _ self1 (massBuilder1 2%:M) 1 erefl isT).
- exact: trmx1.
- exact: tr_scalar_mx.
Defined.

Lemma getRHS_spec_witness : getRHS 0 u1 self1 = (Ok 0, self1).
Proof.
have [_ _ _ H] := @getRHS_spec _ _ _ _ _ self1 (massBuilder1 2%:M) u1 0 1 erefl erefl.
exact: H.
Defined.

Lemma AhRHS_never_reads_initial_witness :
  (forall u, AhRHS u1 0 u self1 =
     (Ok (MfMui (massBuilder1 2%:M) *m edgeCurl (mesh self1)
          *m MeSigmaI (massBuilder1 2%:M) *m 3%:M
          + MfMui (massBuilder1 2%:M) *m 7%:M), self1))
  /\ (forall tInd u seed,
        AhRHS u1 tInd (mkFields seed (e_hist u) (b_hist u)) self1
        = AhRHS u1 tInd u self1).
Proof.
exact: (@AhRHS_never_reads_initial _ _ _ _ _ self1 (massBuilder1 2%:M) u1
          3%:M 7%:M erefl erefl erefl).
Defined.

(** C9, the claim as stated fails: the mass matrices of [self1] were built
    for the conductivity [2]; with the current model [1] they are stale, and
    [getA] and [getRHS] still return, [getA] with the matrix of the old
    model ([3/2]) where the current one would give [2]. *)
Lemma stale_mass_counterexample :
  [/\ mass self1 <> Some (massBuilder self1 1%:M),
      getA 0 self1 = (Ok (3 / 2)%:M, self1),
      getA 0 (built self1 1%:M) = (Ok 2%:M, built self1 1%:M)
    & getRHS 0 u1 self1 = (Ok 0, self1)].
Proof.
split.
- case=> /(congr1 (fun A : 'M[rat]_1 => A 0 0)); rewrite !scalar1E.
  by move/eqP.
- rewrite (@getA_built _ _ _ _ _ self1 (massBuilder1 2%:M) 0 1 erefl erefl).
  by rewrite systemMatrix1 scalar1E; congr (Ok _%:M, _); apply/eqP.
- rewrite (@getA_built _ _ _ _ _ (built self1 1%:M) (massBuilder1 1%:M) 0 1 erefl erefl).
  by rewrite systemMatrix1 scalar1E; congr (Ok _%:M, _); apply/eqP.
- rewrite (@getRHS_built _ _ _ _ _ self1 (massBuilder1 2%:M) u1 0 1 0 erefl erefl erefl).
  by rewrite mulmx0.
Qed.

Lemma getA_getRHS_mass_guard_witness :
  [/\ (exists e, getA 0 (problem1 [:: 1; 2]) = (Raise e, problem1 [:: 1; 2]))
      /\ (exists e, getRHS 0 u1 (problem1 [:: 1; 2]) = (Raise e, problem1 [:: 1; 2])),
      getA 0 self1 = (Ok (systemMatrix mesh1 (massBuilder1 2%:M) 1), self1)
    & getRHS 1 u1 self1 = (Ok ((1 / 2) *: MfMui (massBuilder1 2%:M) *m 7%:M), self1)].
Proof.
have [H1 H2 _] := @getA_getRHS_mass_guard _ _ _ _ _ (problem1 [:: 1; 2]) 0 u1 2%:M.
have [_ _ H3] := @getA_getRHS_mass_guard _ _ _ _ _ (problem1 [:: 1; 2]) 1 u1 2%:M.
by split; [apply: H1 | apply: H2 | apply: (H3 isT)].
Defined.

Lemma G_spec_witness :
  exists p,
    G 2%:M 1%:M (Some u1) self1 = (Ok p, self1)
    /\ forall i, (i < 2)%N ->
       (exists2 pe, get_e p i = Ok pe
          & forall r j, pe r j =
              - (nth 0 (e_hist u1) i) r j
              * (getEdgeMassDeriv mesh1 *m transformDeriv model1 2%:M *m 1%:M) r 0)
       /\ get_b p i%:Z = Ok 0.
Proof. exact: (@G_spec _ _ _ _ _ self1 2%:M 1%:M u1 isT). Defined.

Lemma G_linear_witness :
  exists p1 p2,
    [/\ G 2%:M 1%:M (Some u1) self1 = (Ok p1, self1),
        G 2%:M 5%:M (Some u1) self1 = (Ok p2, self1)
      & G 2%:M (2 *: 1%:M + 3 *: 5%:M) (Some u1) self1
        = (Ok (addF (scaleF 2 p1) (scaleF 3 p2)), self1)].
Proof. exact: (@G_linear _ _ _ _ _ self1 2%:M u1 2 3 1%:M 5%:M isT). Defined.

Lemma AhVec_spec_witness :
  exists f,
    AhVec 2%:M (Some u1) (problem1 [:: 1; 2]) = (Ok f, self1)
    /\ get_b f 1%:Z = Ok ((1 / 2) *: 11%:M + edgeCurl mesh1 *m 5%:M - (1 / 2) *: 7%:M)
    /\ get_e f 1 = Ok ((edgeCurl mesh1)^T *m MfMui (massBuilder1 2%:M) *m 11%:M
                       - MeSigma (massBuilder1 2%:M) *m 5%:M).
Proof.
have [f [Hrun Hf]] := @AhVec_spec _ _ _ _ _ (problem1 [:: 1; 2]) 2%:M u1 isT isT isT.
by exists f; split; [exact: Hrun | exact: (Hf 1%N isT)].
Defined.

Lemma solveAh_spec_witness :
  exists Y,
    solveAh 2%:M u1 (problem1 [:: 1; 2]) = (Ok Y, self1)
    /\ exists A,
         [/\ getA 1 self1 = (Ok A, self1),
             A *m nth 0 (b_hist Y) 1 =
               MfMui (massBuilder1 2%:M) *m edgeCurl mesh1 *m MeSigmaI (massBuilder1 2%:M)
               *m 5%:M + MfMui (massBuilder1 2%:M) *m 11%:M
               + (1 / 2) *: MfMui (massBuilder1 2%:M) *m nth 0 (b_hist Y) 0
           & nth 0 (e_hist Y) 1 =
               MeSigmaI (massBuilder1 2%:M) *m (edgeCurl mesh1)^T
               *m MfMui (massBuilder1 2%:M) *m nth 0 (b_hist Y) 1
               - MeSigmaI (massBuilder1 2%:M) *m 5%:M].
Proof.
have [_ [Y [Hrun HY]]] :=
  @solveAh_spec _ _ _ _ _ (problem1 [:: 1; 2]) 2%:M u1 isT isT self1_solvable.
by exists Y; split; [exact: Hrun | exact: (HY 1%N isT)].
Defined.

Lemma solveAh_AhVec_roundtrip_witness :
  exists Y,
    [/\ (do f <- AhVec 2%:M (Some u1); solveAh 2%:M f) (problem1 [:: 1; 2])
        = (Ok Y, self1),
        e_hist Y = e_hist u1 & b_hist Y = b_hist u1].
Proof.
apply: (@solveAh_AhVec_roundtrip _ _ _ _ _ (problem1 [:: 1; 2]) 2%:M u1 isT erefl erefl).
- exact: massBuilder1_inverse.
- exact: self1_solvable.
Defined.

(** * Further operations and properties *)

(** ** The Jacobian-vector product [J] *)

Section Jacobian.

Variable K : fieldType.
Variables nE nF nC nP nD : nat.

(** [self.data.projectFields], the data projection of the survey paired with
    the problem: an external collaborator, taken as a parameter.  It maps a
    field history to a vector of [nD] observations, or raises. *)
Variable projectFields : FieldsTDEM K nE nF -> result 'cV[K]_nD.

(** [J(m, v, u=None)]. *)
Definition J (m : 'cV[K]_nP) (v : 'cV[K]_nP) (u : option (FieldsTDEM K nE nF))
  : Method K nE nF nC nP 'cV[K]_nD :=
  do u <- (if u is Some u' then ret u' else fields m None None);
  do p <- G m v (Some u);
  do y <- solveAh m p;
  lift (projectFields y).

End Jacobian.

(** ** Histories as a vector space *)

Section Operators.

Variable K : fieldType.
Variables nE nF nC nP : nat.

Implicit Types (self : ProblemTDEM_b K nE nF nC nP).
Implicit Types (mm : MassMatrices K nE nF).
Implicit Types (msh : Mesh K nE nF nC).
Implicit Types (u p F Y : FieldsTDEM K nE nF).
Implicit Types (m v : 'cV[K]_nP).
Implicit Types (a b : K) (dts : seq K).

Lemma size_addF p q nT :
  size (e_hist p) = nT -> size (b_hist p) = nT ->
  size (e_hist q) = nT -> size (b_hist q) = nT ->
  size (e_hist (addF p q)) = nT /\ size (b_hist (addF p q)) = nT.
Proof. by move=> He Hb He' Hb'; rewrite /= !size_map !size_zip He Hb He' Hb' minnn. Qed.

Lemma nth_scale (V : lmodType K) a (s : seq V) j :
  nth 0 [seq a *: x | x <- s] j = a *: nth 0 s j.
Proof.
case: (ltnP j (size s)) => Hj; first by rewrite (nth_map 0).
by rewrite !nth_default ?size_map // scaler0.
Qed.

Lemma nth_add (V : lmodType K) (s t : seq V) j :
  size s = size t ->
  nth 0 [seq x.1 + x.2 | x <- zip s t] j = nth 0 s j + nth 0 t j.
Proof.
move=> Hst; case: (ltnP j (size s)) => Hj.
  by rewrite (nth_map (0, 0)) ?size_zip -?Hst ?minnn // nth_zip.
by rewrite !nth_default ?size_map ?size_zip -?Hst ?minnn // addr0.
Qed.

(** ** [AhVec] is a linear operator *)

Lemma e_residual_add msh mm u1 u2 j :
  size (e_hist u1) = size (e_hist u2) -> size (b_hist u1) = size (b_hist u2) ->
  e_residual msh mm (addF u1 u2) j = e_residual msh mm u1 j + e_residual msh mm u2 j.
Proof.
by move=> He Hb; rewrite /e_residual /= !nth_add // !mulmxDr opprD addrACA.
Qed.

Lemma e_residual_scale msh mm a u j :
  e_residual msh mm (scaleF a u) j = a *: e_residual msh mm u j.
Proof. by rewrite /e_residual /= !nth_scale -!scalemxAr scalerBr. Qed.

Lemma b_residual_add msh dts u1 u2 j :
  size (e_hist u1) = size (e_hist u2) -> size (b_hist u1) = size (b_hist u2) ->
  b_residual msh dts (addF u1 u2) j = b_residual msh dts u1 j + b_residual msh dts u2 j.
Proof.
move=> He Hb; rewrite /b_residual /=; case: j => [|j]; rewrite !nth_add //.
  by rewrite scalerDr mulmxDr addrACA.
by rewrite !scalerDr mulmxDr opprD [X in X + _ = _]addrACA addrACA.
Qed.

Lemma b_residual_scale msh dts a u j :
  b_residual msh dts (scaleF a u) j = a *: b_residual msh dts u j.
Proof.
rewrite /b_residual /=; case: j => [|j]; rewrite !nth_scale.
  by rewrite scalerDr !scalerA mulrC -scalemxAr.
by rewrite scalerBr scalerDr !scalerA [a * _]mulrC -scalemxAr.
Qed.

Lemma AhVec_result_add msh mm dts u1 u2 nT :
  size (e_hist u1) = size (e_hist u2) -> size (b_hist u1) = size (b_hist u2) ->
  AhVec_result msh mm dts (addF u1 u2) nT
  = addF (AhVec_result msh mm dts u1 nT) (AhVec_result msh mm dts u2 nT).
Proof.
move=> He Hb; apply: fields_eq; rewrite /= ?addr0 //.
- by rewrite size_map size_zip !size_mkseq minnn.
- by rewrite size_map size_zip !size_mkseq minnn.
- move=> j; rewrite size_mkseq => Hj.
  by rewrite nth_add ?size_mkseq // !nth_mkseq // e_residual_add.
- move=> j; rewrite size_mkseq => Hj.
  by rewrite nth_add ?size_mkseq // !nth_mkseq // b_residual_add.
Qed.

Lemma AhVec_result_scale msh mm dts a u nT :
  AhVec_result msh mm dts (scaleF a u) nT = scaleF a (AhVec_result msh mm dts u nT).
Proof.
apply: fields_eq; rewrite /= ?scaler0 //.
- by rewrite size_map !size_mkseq.
- by rewrite size_map !size_mkseq.
- move=> j; rewrite size_mkseq => Hj.
  by rewrite nth_scale !nth_mkseq // e_residual_scale.
- move=> j; rewrite size_mkseq => Hj.
  by rewrite nth_scale !nth_mkseq // b_residual_scale.
Qed.

(** X1: [AhVec] is linear in the history: for two histories of the length
    of a time mesh of at least one step, [AhVec(m, a*u1 + b*u2)] is
    [a*AhVec(m, u1) + b*AhVec(m, u2)], componentwise. *)
Theorem AhVec_linear self m a b u1 u2 :
  let nT := size (timeSteps self) in
  (0 < nT)%N ->
  size (e_hist u1) = nT -> size (b_hist u1) = nT ->
  size (e_hist u2) = nT -> size (b_hist u2) = nT ->
  exists f1 f2,
    [/\ AhVec m (Some u1) self = (Ok f1, built self m),
        AhVec m (Some u2) self = (Ok f2, built self m)
      & AhVec m (Some (addF (scaleF a u1) (scaleF b u2))) self
        = (Ok (addF (scaleF a f1) (scaleF b f2)), built self m)].
Proof.
move=> nT HnT He1 Hb1 He2 Hb2.
do 2![eexists]; split; [apply: AhVec_run; rewrite ?He1 ?Hb1 //
                       | apply: AhVec_run; rewrite ?He2 ?Hb2 // |].
have Hse : size (e_hist (addF (scaleF a u1) (scaleF b u2))) = nT.
  by rewrite /= size_map size_zip !size_map He1 He2 minnn.
have Hsb : size (b_hist (addF (scaleF a u1) (scaleF b u2))) = nT.
  by rewrite /= size_map size_zip !size_map Hb1 Hb2 minnn.
rewrite AhVec_run ?Hse ?Hsb //.
by rewrite AhVec_result_add ?AhVec_result_scale //= !size_map ?He1 ?Hb1.
Qed.

(** X2: [AhVec] of the all-zero history is the all-zero history. *)
Theorem AhVec_zero self m :
  (0 < size (timeSteps self))%N ->
  AhVec m (Some (newFieldsTDEM K nE nF (size (timeSteps self)))) self
  = (Ok (newFieldsTDEM K nE nF (size (timeSteps self))), built self m).
Proof.
move=> HnT; rewrite AhVec_run ?size_nseq //; congr (Ok _, _).
apply: fields_eq; rewrite /= ?size_mkseq ?size_nseq // => j Hj.
- by rewrite nth_mkseq // /e_residual /= !nth_nseq !if_same !mulmx0 subr0.
- rewrite nth_mkseq // /b_residual /= nth_nseq Hj; case: j Hj => [|j] Hj.
    by rewrite !nth_nseq HnT scaler0 mulmx0 addr0.
  by rewrite !nth_nseq !if_same !scaler0 mulmx0 addr0 subr0.
Qed.

(** X3: [AhVec] with a supplied history never uses the mass matrices that
    [self] holds on entry: stale, unset or current, the result and the final
    state are the same. *)
Theorem AhVec_ignores_entry_mass self m u (stale : option (MassMatrices K nE nF)) :
  AhVec m (Some u)
    (mkProblem (mesh self) (model self) (timeSteps self) (massBuilder self) stale)
  = AhVec m (Some u) self.
Proof. by case: self. Qed.

(** ** [solveAh] is a linear operator *)

(** The history [Y] solves the adjoint system of the forcing [p]: at every
    step the stored "b" solves the system of the step and the stored "e"
    follows the field rule. *)
Definition Ah_solves msh mm dts (nT : nat) p Y : Prop :=
  [/\ size (e_hist Y) = nT, size (b_hist Y) = nT
    & forall j, (j < nT)%N ->
        systemMatrix msh mm (nth 0 dts j) *m nth 0 (b_hist Y) j
          = Ah_rhs msh mm dts p Y j
        /\ nth 0 (e_hist Y) j = Ah_rule msh mm p (nth 0 (b_hist Y) j) j].

Lemma solveAh_solves self m p :
  let nT := size (timeSteps self) in
  let mm := massBuilder self m in
  (nT <= size (e_hist p))%N -> (nT <= size (b_hist p))%N ->
  (forall t, (t < nT)%N ->
     systemMatrix (mesh self) mm (nth 0 (timeSteps self) t) \in unitmx) ->
  exists Y,
    [/\ solveAh m p self = (Ok Y, built self m), b0 Y = 0
      & Ah_solves (mesh self) mm (timeSteps self) nT p Y].
Proof.
move=> nT mm Hpe Hpb HA.
have Hm : mass (built self m) = Some mm by [].
have [Y [Hrun [Hse Hsb] H0 _ Hhigh]] :=
  @solveAh_loop _ _ _ _ _ (built self m) mm p Hm Hpe Hpb HA nT 0%N
    (newFieldsTDEM K nE nF nT) (add0n _) (size_nseq _ _) (size_nseq _ _).
exists Y; split=> //.
by rewrite /solveAh /fields /bind /makeMassMatrices -/(built self m) /times_size Hrun.
Qed.

Lemma Ah_solves_unique msh mm dts nT p Y Y' :
  (forall t, (t < nT)%N -> systemMatrix msh mm (nth 0 dts t) \in unitmx) ->
  Ah_solves msh mm dts nT p Y -> Ah_solves msh mm dts nT p Y' ->
  e_hist Y = e_hist Y' /\ b_hist Y = b_hist Y'.
Proof.
move=> HA [Hse Hsb HY] [Hse' Hsb' HY'].
have Hb : forall j, (j < nT)%N -> nth 0 (b_hist Y) j = nth 0 (b_hist Y') j.
  elim/ltn_ind=> j IH Hj; have [Hsys _] := HY j Hj; have [Hsys' _] := HY' j Hj.
  apply: (can_inj (mulKmx (HA j Hj))); rewrite Hsys Hsys'.
  by apply: Ah_rhs_prev => i Hi; apply: IH => //; apply: ltn_trans Hj.
split; apply: (eq_from_nth (x0 := 0)); rewrite ?Hse ?Hsb // => j Hj.
by have [_ ->] := HY j Hj; have [_ ->] := HY' j Hj; rewrite Hb.
Qed.

Lemma Ah_rhs_add msh mm dts p1 p2 Y1 Y2 j :
  size (e_hist p1) = size (e_hist p2) -> size (b_hist p1) = size (b_hist p2) ->
  size (b_hist Y1) = size (b_hist Y2) ->
  Ah_rhs msh mm dts (addF p1 p2) (addF Y1 Y2) j
  = Ah_rhs msh mm dts p1 Y1 j + Ah_rhs msh mm dts p2 Y2 j.
Proof.
move=> He Hb HY; rewrite /Ah_rhs /=; case: j => [|j]; rewrite !nth_add //.
  by rewrite !mulmxDr addrACA.
by rewrite !mulmxDr [X in X + _ = _]addrACA addrACA.
Qed.

Lemma Ah_rhs_scale msh mm dts a p Y j :
  Ah_rhs msh mm dts (scaleF a p) (scaleF a Y) j = a *: Ah_rhs msh mm dts p Y j.
Proof.
rewrite /Ah_rhs /=; case: j => [|j]; rewrite !nth_scale.
  by rewrite -!scalemxAr scalerDr.
by rewrite -!scalemxAr !scalerDr.
Qed.

Lemma Ah_rule_add msh mm p1 p2 (b1 b2 : 'cV[K]_nF) j :
  size (e_hist p1) = size (e_hist p2) ->
  Ah_rule msh mm (addF p1 p2) (b1 + b2) j
  = Ah_rule msh mm p1 b1 j + Ah_rule msh mm p2 b2 j.
Proof. by move=> He; rewrite /Ah_rule /= nth_add // !mulmxDr opprD addrACA. Qed.

Lemma Ah_rule_scale msh mm a p (b1 : 'cV[K]_nF) j :
  Ah_rule msh mm (scaleF a p) (a *: b1) j = a *: Ah_rule msh mm p b1 j.
Proof. by rewrite /Ah_rule /= nth_scale -!scalemxAr scalerBr. Qed.

Lemma Ah_solves_add msh mm dts nT p1 p2 Y1 Y2 :
  size (e_hist p1) = size (e_hist p2) -> size (b_hist p1) = size (b_hist p2) ->
  Ah_solves msh mm dts nT p1 Y1 -> Ah_solves msh mm dts nT p2 Y2 ->
  Ah_solves msh mm dts nT (addF p1 p2) (addF Y1 Y2).
Proof.
move=> He Hb [Hse1 Hsb1 HY1] [Hse2 Hsb2 HY2].
have [Hse Hsb] := size_addF Hse1 Hsb1 Hse2 Hsb2.
split=> // j Hj; have [Hs1 Hr1] := HY1 j Hj; have [Hs2 Hr2] := HY2 j Hj.
rewrite /= !nth_add ?Hse1 ?Hsb1 // mulmxDr Hs1 Hs2 Hr1 Hr2.
by rewrite Ah_rhs_add ?Hsb1 // Ah_rule_add.
Qed.

Lemma Ah_solves_scale msh mm dts nT a p Y :
  Ah_solves msh mm dts nT p Y -> Ah_solves msh mm dts nT (scaleF a p) (scaleF a Y).
Proof.
move=> [Hse Hsb HY]; split; rewrite /= ?size_map // => j Hj.
have [Hs Hr] := HY j Hj.
by rewrite !nth_scale -scalemxAr Hs Hr -Ah_rhs_scale -Ah_rule_scale.
Qed.

Lemma solveAh_combination self m a b p1 p2 :
  let nT := size (timeSteps self) in
  let mm := massBuilder self m in
  size (e_hist p1) = nT -> size (b_hist p1) = nT ->
  size (e_hist p2) = nT -> size (b_hist p2) = nT ->
  (forall t, (t < nT)%N ->
     systemMatrix (mesh self) mm (nth 0 (timeSteps self) t) \in unitmx) ->
  exists Y1 Y2,
    [/\ solveAh m p1 self = (Ok Y1, built self m),
        solveAh m p2 self = (Ok Y2, built self m)
      & solveAh m (addF (scaleF a p1) (scaleF b p2)) self
        = (Ok (addF (scaleF a Y1) (scaleF b Y2)), built self m)].
Proof.
move=> nT mm He1 Hb1 He2 Hb2 HA.
have [Y1 [Hrun1 H01 HY1]] := @solveAh_solves self m p1 (eq_leq (esym He1))
                               (eq_leq (esym Hb1)) HA.
have [Y2 [Hrun2 H02 HY2]] := @solveAh_solves self m p2 (eq_leq (esym He2))
                               (eq_leq (esym Hb2)) HA.
set p := addF (scaleF a p1) (scaleF b p2).
have Hpe : size (e_hist p) = nT by rewrite /= size_map size_zip !size_map He1 He2 minnn.
have Hpb : size (b_hist p) = nT by rewrite /= size_map size_zip !size_map Hb1 Hb2 minnn.
have [Y [Hrun H0 HY]] := @solveAh_solves self m p (eq_leq (esym Hpe))
                           (eq_leq (esym Hpb)) HA.
exists Y1, Y2; split=> //; rewrite Hrun; congr (Ok _, _).
have HY' : Ah_solves (mesh self) mm (timeSteps self) nT p
             (addF (scaleF a Y1) (scaleF b Y2)).
  apply: Ah_solves_add; rewrite /= ?size_map ?He1 ?Hb1 //.
  - exact: Ah_solves_scale.
  - exact: Ah_solves_scale.
have [Hse Hsb] := Ah_solves_unique HA HY HY'.
case: Y Hrun H0 HY Hse Hsb => z e' b' _ /= -> _ -> ->.
by rewrite /addF /= H01 H02 !scaler0 addr0.
Qed.

(** X4: [solveAh] is linear in the forcing: for two forcings of the length of
    the time mesh and solvable steps, [solveAh(m, a*p1 + b*p2)] is
    [a*solveAh(m, p1) + b*solveAh(m, p2)], componentwise. *)
Theorem solveAh_linear self m a b p1 p2 :
  let nT := size (timeSteps self) in
  let mm := massBuilder self m in
  size (e_hist p1) = nT -> size (b_hist p1) = nT ->
  size (e_hist p2) = nT -> size (b_hist p2) = nT ->
  (forall t, (t < nT)%N ->
     systemMatrix (mesh self) mm (nth 0 (timeSteps self) t) \in unitmx) ->
  exists Y1 Y2,
    [/\ solveAh m p1 self = (Ok Y1, built self m),
        solveAh m p2 self = (Ok Y2, built self m)
      & solveAh m (addF (scaleF a p1) (scaleF b p2)) self
        = (Ok (addF (scaleF a Y1) (scaleF b Y2)), built self m)].
Proof. exact: solveAh_combination. Qed.

Lemma solveAh_no_forcing self m :
  let nT := size (timeSteps self) in
  (forall t, (t < nT)%N ->
     systemMatrix (mesh self) (massBuilder self m) (nth 0 (timeSteps self) t)
       \in unitmx) ->
  solveAh m (newFieldsTDEM K nE nF nT) self
  = (Ok (newFieldsTDEM K nE nF nT), built self m).
Proof.
move=> nT HA; set mm := massBuilder self m.
have Hsz : (nT <= size (e_hist (newFieldsTDEM K nE nF nT)))%N by rewrite /= size_nseq.
have Hsz' : (nT <= size (b_hist (newFieldsTDEM K nE nF nT)))%N by rewrite /= size_nseq.
have [Y [-> H0 HY]] := @solveAh_solves self m (newFieldsTDEM K nE nF nT) Hsz Hsz' HA.
congr (Ok _, _).
have HZ : Ah_solves (mesh self) mm (timeSteps self) nT
            (newFieldsTDEM K nE nF nT) (newFieldsTDEM K nE nF nT).
  split; rewrite /= ?size_nseq // => j Hj; rewrite /Ah_rule /= !nth_nseq !if_same.
  rewrite !mulmx0 subr0; split=> //.
  by rewrite /Ah_rhs /=; case: j {Hj} => [|j]; rewrite !nth_nseq !if_same !mulmx0 !addr0.
have [Hse Hsb] := Ah_solves_unique HA HY HZ.
by case: Y H0 HY Hse Hsb => z e' b' /= -> _ -> ->.
Qed.

(** X5: with no forcing, [solveAh] returns the all-zero history whenever the
    steps are solvable. *)
Theorem solveAh_zero self m :
  let nT := size (timeSteps self) in
  (forall t, (t < nT)%N ->
     systemMatrix (mesh self) (massBuilder self m) (nth 0 (timeSteps self) t)
       \in unitmx) ->
  solveAh m (newFieldsTDEM K nE nF nT) self
  = (Ok (newFieldsTDEM K nE nF nT), built self m).
Proof. exact: solveAh_no_forcing. Qed.

(** ** [AhVec] after [solveAh] *)

Lemma systemMatrix_factor msh mm (dt : K) :
  systemMatrix msh mm dt
  = MfMui mm *m (edgeCurl msh *m MeSigmaI mm *m (edgeCurl msh)^T *m MfMui mm
                 + (1 / dt)%:M).
Proof. by rewrite /systemMatrix mulmxDr mul_mx_scalar !mulmxA. Qed.

Lemma MfMui_unit msh mm (dt : K) :
  systemMatrix msh mm dt \in unitmx -> MfMui mm \in unitmx.
Proof. by rewrite systemMatrix_factor unitmx_mul => /andP[]. Qed.

Section InverseAlgebra.

Variables (M : 'M[K]_nF) (C : 'M[K]_(nF, nE)) (SI S : 'M[K]_nE) (d : K).
Variables (yb ybp pb : 'cV[K]_nF) (ye pe : 'cV[K]_nE).
Hypothesis HI : SI *m S = 1%:M.
Hypothesis Hrule : ye = SI *m C^T *m M *m yb - SI *m pe.

Lemma inverse_e : C^T *m M *m yb - S *m ye = pe.
Proof.
rewrite Hrule mulmxBr opprB !mulmxA (mulmx1C HI) !mul1mx.
by rewrite addrC subrK.
Qed.

Lemma inverse_b_first :
  (M *m C *m SI *m C^T *m M + d *: M) *m yb = M *m C *m SI *m pe + M *m pb ->
  M *m (d *: yb + C *m ye) = M *m pb.
Proof.
move=> Hsys; rewrite Hrule mulmxDr mulmxBr mulmxBr -scalemxAr !mulmxA.
rewrite addrA [d *: _ + _]addrC.
have -> : M *m C *m SI *m C^T *m M *m yb + d *: (M *m yb)
          = M *m C *m SI *m pe + M *m pb.
  by rewrite -Hsys mulmxDl -scalemxAl.
by rewrite [_ + M *m pb]addrC addrK.
Qed.

Lemma inverse_b_later :
  (M *m C *m SI *m C^T *m M + d *: M) *m yb
    = M *m C *m SI *m pe + M *m pb + d *: M *m ybp ->
  M *m (d *: yb + C *m ye - d *: ybp) = M *m pb.
Proof.
move=> Hsys; rewrite Hrule mulmxBr mulmxDr mulmxBr mulmxBr -!scalemxAr !mulmxA.
rewrite addrA [d *: _ + _]addrC.
have -> : M *m C *m SI *m C^T *m M *m yb + d *: (M *m yb)
          = M *m C *m SI *m pe + M *m pb + d *: (M *m ybp).
  by rewrite [d *: (M *m ybp)]scalemxAl -Hsys mulmxDl -scalemxAl.
by rewrite [_ + _ - M *m C *m SI *m pe]addrAC addrK [_ + M *m pb]addrC addrK.
Qed.

End InverseAlgebra.

(** X6: [AhVec] undoes [solveAh]: on a time mesh of at least one step, for a
    forcing [p] of the length of the mesh, a model whose [MeSigmaI] is the
    inverse of its [MeSigma] and solvable steps, [AhVec(m, solveAh(m, p))]
    returns a history with the "e" and "b" sequences of [p]. *)
Theorem AhVec_solveAh_roundtrip self m p :
  let nT := size (timeSteps self) in
  let mm := massBuilder self m in
  (0 < nT)%N -> size (e_hist p) = nT -> size (b_hist p) = nT ->
  MeSigmaI mm *m MeSigma mm = 1%:M ->
  (forall t, (t < nT)%N ->
     systemMatrix (mesh self) mm (nth 0 (timeSteps self) t) \in unitmx) ->
  exists f,
    [/\ (do Y <- solveAh m p; AhVec m (Some Y)) self = (Ok f, built self m),
        e_hist f = e_hist p & b_hist f = b_hist p].
Proof.
move=> nT mm HnT Hpe Hpb HI HA.
have [Y [Hrun _ [HYe HYb HY]]] :=
  @solveAh_solves self m p (eq_leq (esym Hpe)) (eq_leq (esym Hpb)) HA.
exists (AhVec_result (mesh self) mm (timeSteps self) Y nT); split.
- rewrite /bind Hrun.
  by rewrite (@AhVec_run _ _ _ _ _ (built self m) m Y) /= ?HYe ?HYb.
- apply: (eq_from_nth (x0 := 0)); rewrite /= size_mkseq ?Hpe // => j Hj.
  rewrite nth_mkseq // /e_residual; have [_ Hrule] := HY j Hj.
  exact: inverse_e HI Hrule.
- apply: (eq_from_nth (x0 := 0)); rewrite /= size_mkseq ?Hpb // => j Hj.
  rewrite nth_mkseq //; have [Hsys Hrule] := HY j Hj.
  have HM := MfMui_unit (HA j Hj).
  apply: (can_inj (mulKmx HM)); rewrite /b_residual.
  case: j Hj Hsys Hrule {HM} => [|j] Hj Hsys Hrule.
    exact: inverse_b_first Hrule Hsys.
  exact: inverse_b_later Hrule Hsys.
Qed.

(** ** The forcing [G] and the product [J] *)

Lemma G_result_linear a b (c1 c2 : 'cV[K]_nE) u nT :
  G_result (a *: c1 + b *: c2) u nT
  = addF (scaleF a (G_result c1 u nT)) (scaleF b (G_result c2 u nT)).
Proof.
apply: fields_eq; rewrite /= ?scaler0 ?addr0 //.
- by rewrite ?(size_map, size_zip, size_mkseq, size_nseq, size_iota, minnn).
- by rewrite ?(size_map, size_zip, size_mkseq, size_nseq, size_iota, minnn).
- move=> j; rewrite size_mkseq => Hj.
  by rewrite nth_add ?size_map ?size_mkseq // !nth_scale !nth_mkseq // G_pVal_linear.
- move=> j; rewrite size_nseq => Hj.
  by rewrite nth_add ?size_map ?size_nseq // !nth_scale !nth_nseq Hj !scaler0 addr0.
Qed.

Lemma G_result_zero u nT : G_result 0 u nT = newFieldsTDEM K nE nF nT.
Proof.
apply: fields_eq; rewrite /= ?size_mkseq ?size_nseq // => j Hj.
rewrite nth_mkseq // nth_nseq Hj.
by apply/matrixP => r k; rewrite !mxE mulr0.
Qed.

(** X7: on a time mesh with no steps [G] returns the empty history, while
    [AhVec] raises: it reads step [0] before its loop. *)
Theorem empty_time_mesh self m v u :
  timeSteps self = [::] ->
  G m v (Some u) self = (Ok (newFieldsTDEM K nE nF 0), self)
  /\ AhVec m (Some u) self = (Raise IndexError, built self m).
Proof.
move=> Hts; split.
  by rewrite G_run Hts.
by rewrite /AhVec /bind /ret /makeMassMatrices -/(built self m) /getDt /= Hts.
Qed.

Section JacobianTheory.

Variable nD : nat.
Variable projectFields : FieldsTDEM K nE nF -> result 'cV[K]_nD.

Lemma J_run self m v u :
  let nT := size (timeSteps self) in
  (nT <= size (e_hist u))%N ->
  (forall t, (t < nT)%N ->
     systemMatrix (mesh self) (massBuilder self m) (nth 0 (timeSteps self) t)
       \in unitmx) ->
  exists Y,
    [/\ solveAh m (G_result (G_c (mesh self) (model self) m v) u nT) self
        = (Ok Y, built self m),
        size (e_hist Y) = nT /\ size (b_hist Y) = nT
      & J projectFields m v (Some u) self = (projectFields Y, built self m)].
Proof.
move=> nT Hu HA; set p := G_result _ _ _.
have Hpe : (nT <= size (e_hist p))%N by rewrite /= size_mkseq.
have Hpb : (nT <= size (b_hist p))%N by rewrite /= size_nseq.
have [Y [Hrun _ [HYe HYb _]]] := @solveAh_solves self m p Hpe Hpb HA.
by exists Y; split=> //; rewrite /J /bind /ret (G_run _ _ Hu) -/p Hrun.
Qed.

(** X8: [J] is linear in the direction whenever the data projection is
    linear on histories of the length of the time mesh: if [J(m, v1, u)] and
    [J(m, v2, u)] return [d1] and [d2], then [J(m, a*v1 + b*v2, u)] returns
    [a*d1 + b*d2]. *)
Theorem J_linear self m a b v1 v2 u (d1 d2 : 'cV[K]_nD) :
  let nT := size (timeSteps self) in
  (nT <= size (e_hist u))%N ->
  (forall t, (t < nT)%N ->
     systemMatrix (mesh self) (massBuilder self m) (nth 0 (timeSteps self) t)
       \in unitmx) ->
  (forall Y1 Y2 y1 y2,
     size (e_hist Y1) = nT -> size (b_hist Y1) = nT ->
     size (e_hist Y2) = nT -> size (b_hist Y2) = nT ->
     projectFields Y1 = Ok y1 -> projectFields Y2 = Ok y2 ->
     projectFields (addF (scaleF a Y1) (scaleF b Y2)) = Ok (a *: y1 + b *: y2)) ->
  J projectFields m v1 (Some u) self = (Ok d1, built self m) ->
  J projectFields m v2 (Some u) self = (Ok d2, built self m) ->
  J projectFields m (a *: v1 + b *: v2) (Some u) self
  = (Ok (a *: d1 + b *: d2), built self m).
Proof.
move=> nT Hu HA Hlin.
have [Y1 [Hrun1 [He1 Hb1] ->]] := @J_run self m v1 u Hu HA.
have [Y2 [Hrun2 [He2 Hb2] ->]] := @J_run self m v2 u Hu HA.
have [Y [Hrun _ ->]] := @J_run self m (a *: v1 + b *: v2) u Hu HA.
case=> HY1 [HY2]; congr (_, _).
move: Hrun; rewrite G_c_linear G_result_linear.
set p1 := G_result _ _ _; set p2 := G_result (G_c _ _ _ v2) _ _.
have Hp1e : size (e_hist p1) = nT by rewrite /= size_mkseq.
have Hp1b : size (b_hist p1) = nT by rewrite /= size_nseq.
have Hp2e : size (e_hist p2) = nT by rewrite /= size_mkseq.
have Hp2b : size (b_hist p2) = nT by rewrite /= size_nseq.
have [Z1 [Z2 [HZ1 HZ2 ->]]] := @solveAh_combination self m a b p1 p2 Hp1e Hp1b Hp2e Hp2b HA.
move: HZ1 HZ2; rewrite Hrun1 Hrun2 => -[<-] [<-] [<-].
exact: Hlin.
Qed.

(** X9: in the zero direction [J] returns the data of the all-zero history. *)
Theorem J_zero self m u :
  let nT := size (timeSteps self) in
  (nT <= size (e_hist u))%N ->
  (forall t, (t < nT)%N ->
     systemMatrix (mesh self) (massBuilder self m) (nth 0 (timeSteps self) t)
       \in unitmx) ->
  J projectFields m 0 (Some u) self
  = (projectFields (newFieldsTDEM K nE nF nT), built self m).
Proof.
move=> nT Hu HA; have [Y [Hrun _ ->]] := @J_run self m 0 u Hu HA.
move: Hrun; rewrite /G_c mulmx0 G_result_zero (solveAh_no_forcing HA).
by case=> <-.
Qed.

End JacobianTheory.

(** ** What the operators read *)

Lemma bind_ext (T U : Type) (c : Method K nE nF nC nP T)
    (k1 k2 : T -> Method K nE nF nC nP U) self :
  (forall x self', k1 x self' = k2 x self') -> bind c k1 self = bind c k2 self.
Proof. by move=> H; rewrite /bind; case: (c self) => [[x|e] self']. Qed.

Lemma bind_ret (T U : Type) (x : T) (k : T -> Method K nE nF nC nP U) self :
  bind (ret x) k self = k x self.
Proof. by []. Qed.

Lemma forM_ext (X : Type) (s : seq nat)
    (body1 body2 : nat -> X -> Method K nE nF nC nP X) (x : X) self :
  (forall i x' self', i \in s -> body1 i x' self' = body2 i x' self') ->
  forM s body1 x self = forM s body2 x self.
Proof.
elim: s x self => [|i s IH] x self Hext //=.
rewrite /bind Hext ?mem_head //; case: (body2 i x self) => [[x'|e] self'] //.
by apply: IH => j y st Hj; apply: Hext; rewrite in_cons Hj orbT.
Qed.

(** X10: a step reads the history under construction only through its "b" of
    the step before: two histories with the same [get_b(tInd-1)] give the
    same right-hand side, for [getRHS] and for the [AhRHS] of [solveAh]. *)
Theorem rhs_reads_previous_step_only self p tInd F F' :
  get_b F (tInd%:Z - 1) = get_b F' (tInd%:Z - 1) ->
  getRHS tInd F self = getRHS tInd F' self
  /\ AhRHS p tInd F self = AhRHS p tInd F' self.
Proof. by move=> H; rewrite /getRHS /AhRHS H. Qed.

(** X11: [AhVec] never reads the initial condition of the history it is
    given: with another seed at index [-1] it returns the same. *)
Theorem AhVec_never_reads_initial self m u (seed : 'cV[K]_nF) :
  AhVec m (Some (mkFields seed (e_hist u) (b_hist u))) self = AhVec m (Some u) self.
Proof.
set u' := mkFields _ _ _.
have Hb : forall i : nat, get_b u' i%:Z = get_b u i%:Z by [].
have He : forall i, get_e u' i = get_e u i by [].
rewrite /AhVec !bind_ret; cbv beta; rewrite !Hb !He; do ![apply: bind_ext => ? ?].
by apply: forM_ext => i f st; rewrite mem_iota; case: i => [|i].
Qed.

(** X12: [G] reads the forward fields only through their "e": histories
    with the same "e" sequence give the same forcing. *)
Theorem G_reads_e_only self m v u u' :
  e_hist u = e_hist u' -> G m v (Some u) self = G m v (Some u') self.
Proof.
move=> H; have He : forall i, get_e u i = get_e u' i by move=> i; rewrite /get_e H.
rewrite /G !bind_ret; cbv beta; do ![apply: bind_ext => ? ?].
by apply: forM_ext => i f st _; rewrite He.
Qed.

(** X13: the histories [G] and [AhVec] return have exactly as many steps as
    the time mesh, whatever the length of a history [u] that covers the mesh,
    and no initial condition. *)
Theorem result_shapes self m v u :
  let nT := size (timeSteps self) in
  (nT <= size (e_hist u))%N -> (nT <= size (b_hist u))%N ->
  (exists p, [/\ G m v (Some u) self = (Ok p, self),
                 size (e_hist p) = nT, size (b_hist p) = nT & b0 p = 0])
  /\ ((0 < nT)%N ->
      exists f, [/\ AhVec m (Some u) self = (Ok f, built self m),
                    size (e_hist f) = nT, size (b_hist f) = nT & b0 f = 0]).
Proof.
move=> nT Hue Hub; split=> [|HnT]; eexists; split.
- exact: G_run.
- by rewrite /= size_mkseq.
- by rewrite /= size_nseq.
- by [].
- exact: AhVec_run.
- by rewrite /= size_mkseq.
- by rewrite /= size_mkseq.
- by [].
Qed.

End Operators.

(** ** The worked instance, continued *)

(** A second history, and a data projection that observes "b" at the last
    of the two time steps. *)
Definition u2 : FieldsTDEM rat 1 1 := history1 [:: 1; 2] [:: 3; 4].

Definition project1 (Y : FieldsTDEM rat 1 1) : result 'cV[rat]_1 :=
  Ok (nth 0 (b_hist Y) 1).

Lemma project1_linear (a b : rat) (Y1 Y2 : FieldsTDEM rat 1 1) (y1 y2 : 'cV[rat]_1) :
  size (e_hist Y1) = 2 -> size (b_hist Y1) = 2 ->
  size (e_hist Y2) = 2 -> size (b_hist Y2) = 2 ->
  project1 Y1 = Ok y1 -> project1 Y2 = Ok y2 ->
  project1 (addF (scaleF a Y1) (scaleF b Y2)) = Ok (a *: y1 + b *: y2).
Proof.
move=> _ Hb1 _ Hb2 [<-] [<-]; rewrite /project1 /=.
by rewrite nth_add ?size_map ?Hb1 ?Hb2 // !nth_scale.
Qed.

Lemma AhVec_linear_witness :
  exists f1 f2,
    [/\ AhVec 2%:M (Some u1) (problem1 [:: 1; 2]) = (Ok f1, self1),
        AhVec 2%:M (Some u2) (problem1 [:: 1; 2]) = (Ok f2, self1)
      & AhVec 2%:M (Some (addF (scaleF 2 u1) (scaleF 3 u2))) (problem1 [:: 1; 2])
        = (Ok (addF (scaleF 2 f1) (scaleF 3 f2)), self1)].
Proof.
exact: (@AhVec_linear _ _ _ _ _ (problem1 [:: 1; 2]) 2%:M 2 3 u1 u2
          isT erefl erefl erefl erefl).
Defined.

Lemma AhVec_zero_witness :
  AhVec 2%:M (Some (newFieldsTDEM rat 1 1 2)) (problem1 [:: 1; 2])
  = (Ok (newFieldsTDEM rat 1 1 2), self1).
Proof. exact: (@AhVec_zero _ _ _ _ _ (problem1 [:: 1; 2]) 2%:M isT). Defined.

Lemma solveAh_linear_witness :
  exists Y1 Y2,
    [/\ solveAh 2%:M u1 (problem1 [:: 1; 2]) = (Ok Y1, self1),
        solveAh 2%:M u2 (problem1 [:: 1; 2]) = (Ok Y2, self1)
      & solveAh 2%:M (addF (scaleF 2 u1) (scaleF 3 u2)) (problem1 [:: 1; 2])
        = (Ok (addF (scaleF 2 Y1) (scaleF 3 Y2)), self1)].
Proof.
exact: (@solveAh_linear _ _ _ _ _ (problem1 [:: 1; 2]) 2%:M 2 3 u1 u2
          erefl erefl erefl erefl self1_solvable).
Defined.

Lemma solveAh_zero_witness :
  solveAh 2%:M (newFieldsTDEM rat 1 1 2) (problem1 [:: 1; 2])
  = (Ok (newFieldsTDEM rat 1 1 2), self1).
Proof. exact: (@solveAh_zero _ _ _ _ _ (problem1 [:: 1; 2]) 2%:M self1_solvable). Defined.

Lemma AhVec_solveAh_roundtrip_witness :
  exists f,
    [/\ (do Y <- solveAh 2%:M u1; AhVec 2%:M (Some Y)) (problem1 [:: 1; 2])
        = (Ok f, self1),
        e_hist f = e_hist u1 & b_hist f = b_hist u1].
Proof.
apply: (@AhVec_solveAh_roundtrip _ _ _ _ _ (problem1 [:: 1; 2]) 2%:M u1 isT erefl erefl).
- exact: massBuilder1_inverse.
- exact: self1_solvable.
Defined.

Lemma empty_time_mesh_witness :
  G 2%:M 1%:M (Some u1) (problem1 [::]) = (Ok (newFieldsTDEM rat 1 1 0), problem1 [::])
  /\ AhVec 2%:M (Some u1) (problem1 [::])
     = (Raise IndexError, built (problem1 [::]) 2%:M).
Proof. exact: (@empty_time_mesh _ _ _ _ _ (problem1 [::]) 2%:M 1%:M u1 erefl). Defined.

Lemma J_linear_witness :
  exists d1 d2,
    [/\ J project1 2%:M 1%:M (Some u1) (problem1 [:: 1; 2]) = (Ok d1, self1),
        J project1 2%:M 5%:M (Some u1) (problem1 [:: 1; 2]) = (Ok d2, self1)
      & J project1 2%:M (2 *: 1%:M + 3 *: 5%:M) (Some u1) (problem1 [:: 1; 2])
        = (Ok (2 *: d1 + 3 *: d2), self1)].
Proof.
have [Y1 [_ _ H1]] := @J_run _ _ _ _ _ _ project1 (problem1 [:: 1; 2]) 2%:M 1%:M u1
                        isT self1_solvable.
have [Y2 [_ _ H2]] := @J_run _ _ _ _ _ _ project1 (problem1 [:: 1; 2]) 2%:M 5%:M u1
                        isT self1_solvable.
exists (nth 0 (b_hist Y1) 1), (nth 0 (b_hist Y2) 1); split; [exact: H1 | exact: H2 |].
exact: (@J_linear _ _ _ _ _ _ project1 (problem1 [:: 1; 2]) 2%:M 2 3 1%:M 5%:M u1 _ _
          isT self1_solvable (@project1_linear 2 3) H1 H2).
Defined.

Lemma J_zero_witness :
  J project1 2%:M 0 (Some u1) (problem1 [:: 1; 2]) = (Ok 0, self1).
Proof.
exact: (@J_zero _ _ _ _ _ _ project1 (problem1 [:: 1; 2]) 2%:M u1 isT self1_solvable).
Defined.

Lemma rhs_reads_previous_step_only_witness :
  getRHS 1 u1 self1 = getRHS 1 (history1 [:: 0; 0] [:: 7; 0]) self1
  /\ AhRHS u2 1 u1 self1 = AhRHS u2 1 (history1 [:: 0; 0] [:: 7; 0]) self1.
Proof.
exact: (@rhs_reads_previous_step_only _ _ _ _ _ self1 u2 1 u1
          (history1 [:: 0; 0] [:: 7; 0]) erefl).
Defined.

Lemma G_reads_e_only_witness :
  G 2%:M 1%:M (Some u1) self1 = G 2%:M 1%:M (Some (history1 [:: 3; 5] [:: 0; 0])) self1.
Proof.
exact: (@G_reads_e_only _ _ _ _ _ self1 2%:M 1%:M u1 (history1 [:: 3; 5] [:: 0; 0]) erefl).
Defined.

Lemma result_shapes_witness :
  (exists p, [/\ G 2%:M 1%:M (Some u1) (problem1 [:: 1; 2]) = (Ok p, problem1 [:: 1; 2]),
                 size (e_hist p) = 2, size (b_hist p) = 2 & b0 p = 0])
  /\ exists f, [/\ AhVec 2%:M (Some u1) (problem1 [:: 1; 2]) = (Ok f, self1),
                   size (e_hist f) = 2, size (b_hist f) = 2 & b0 f = 0].
Proof.
have [H1 H2] := @result_shapes _ _ _ _ _ (problem1 [:: 1; 2]) 2%:M 1%:M u1 isT isT.
by split; [exact: H1 | exact: (H2 isT)].
Defined.
